(** * Verification of [Scripts/generate_appcast.py]

    A shallow embedding of the Sparkle appcast generator: the text
    operations it relies on ([str.replace], [in], [strip], [html.escape],
    [str(int)]), the backtracking regular-expression matcher behind
    [re.sub], the file-system calls of [pathlib], and the script's own
    functions, from [ensure_base_appcast] to [main]. *)

From Stdlib Require Import String Ascii NArith ZArith List Lia.
From Stdlib Require Import DecimalString DecimalN DecimalFacts.
From stdpp Require Import base option list gmap strings.

Local Open Scope N_scope.

(** ** Text

    A Python [str] is a sequence of Unicode code points; a code point is a
    natural number ([N]), a text a list of them. *)

Abbreviation char := N (only parsing).
Abbreviation str := (list N) (only parsing).

(** [lit s] is the text of the (ASCII) literal [s]. *)
Fixpoint lit (s : string) : str :=
  match s with
  | EmptyString => []
  | String a s' => N_of_ascii a :: lit s'
  end.

(** The two characters that cannot be written inside a literal here. *)
Definition nl : str := [10].
Definition dq : str := [34].

(** [str.isspace] on one character: the code points CPython's
    [Py_UNICODE_ISSPACE] accepts.  [str.strip] and the [\s] class of [re]
    (on [str] patterns) both use it. *)
Definition isspace (c : char) : bool :=
  ((9 <=? c) && (c <=? 13)) || ((28 <=? c) && (c <=? 32))
  || (c =? 133) || (c =? 160) || (c =? 5760)
  || ((8192 <=? c) && (c <=? 8202))
  || (c =? 8232) || (c =? 8233) || (c =? 8239) || (c =? 8287)
  || (c =? 12288).

(** [s.startswith(p)]. *)
Fixpoint starts_with (p s : str) : bool :=
  match p, s with
  | [], _ => true
  | _ :: _, [] => false
  | a :: p', b :: s' => (a =? b) && starts_with p' s'
  end.

(** [s.removeprefix(p)] when [s] starts with [p], nothing otherwise. *)
Fixpoint strip_prefix (p s : str) : option str :=
  match p, s with
  | [], _ => Some s
  | _ :: _, [] => None
  | a :: p', b :: s' => if a =? b then strip_prefix p' s' else None
  end.

(** [p in s]. *)
Fixpoint contains (p s : str) : bool :=
  starts_with p s ||
  match s with
  | [] => false
  | _ :: s' => contains p s'
  end.

(** The number of positions of [s] at which [p] occurs. *)
Fixpoint occurrences (p s : str) : nat :=
  ((if starts_with p s then 1 else 0) +
   match s with
   | [] => 0
   | _ :: s' => occurrences p s'
   end)%nat.

(** [s.partition(p)]: the text before and the text after the first
    occurrence of [p]; [None] when there is none. *)
Fixpoint partition (p s : str) : option (str * str) :=
  match strip_prefix p s with
  | Some r => Some ([], r)
  | None =>
      match s with
      | [] => None
      | c :: s' =>
          match partition p s' with
          | Some (a, b) => Some (c :: a, b)
          | None => None
          end
      end
  end.

(** [s.replace(old, new)] for a non-empty [old]: occurrences are found from
    the left and do not overlap.  [skip] counts the characters of the
    occurrence just replaced that are still to be passed over. *)
Fixpoint replace_from (old new : str) (skip : nat) (s : str) : str :=
  match s with
  | [] => []
  | c :: s' =>
      match skip with
      | S k => replace_from old new k s'
      | O =>
          if starts_with old s
          then new ++ replace_from old new (pred (length old)) s'
          else c :: replace_from old new 0 s'
      end
  end.

Definition replace (old new s : str) : str := replace_from old new 0 s.

(** [s.split(sep)] for a non-empty [sep], with the same scan. *)
Fixpoint split_from (sep : str) (skip : nat) (s : str) : list str :=
  match s with
  | [] => [[]]
  | c :: s' =>
      match skip with
      | S k => split_from sep k s'
      | O =>
          if starts_with sep s
          then [] :: split_from sep (pred (length sep)) s'
          else
            match split_from sep 0 s' with
            | x :: rest => (c :: x) :: rest
            | [] => [[c]]
            end
      end
  end.

Definition split (sep s : str) : list str := split_from sep 0 s.

(** [sep.join(parts)]. *)
Fixpoint join (sep : str) (parts : list str) : str :=
  match parts with
  | [] => []
  | [x] => x
  | x :: rest => x ++ sep ++ join sep rest
  end.

(** [s.lstrip(...)], [s.rstrip(...)] for a set of characters given as a
    predicate, and the whitespace versions [s.lstrip()], [s.rstrip()],
    [s.strip()]. *)
Fixpoint lstrip_by (f : char -> bool) (s : str) : str :=
  match s with
  | [] => []
  | c :: s' => if f c then lstrip_by f s' else s
  end.

Fixpoint rstrip_by (f : char -> bool) (s : str) : str :=
  match s with
  | [] => []
  | c :: s' =>
      match rstrip_by f s' with
      | [] => if f c then [] else [c]
      | r => c :: r
      end
  end.

Definition lstrip (s : str) : str := lstrip_by isspace s.
Definition rstrip (s : str) : str := rstrip_by isspace s.
Definition strip (s : str) : str := lstrip (rstrip s).

(** [c not in s], and: no whitespace in [s]. *)
Definition lacks (c : char) (s : str) : bool := forallb (fun d => negb (d =? c)) s.
Definition no_space (s : str) : bool := forallb (fun d => negb (isspace d)) s.

(** Truth value of a text: non-empty. *)
Definition truthy (s : str) : bool :=
  match s with
  | [] => false
  | _ :: _ => true
  end.

(** [l.insert(i, x)] for [i >= 0]: past the end it appends. *)
Definition list_insert_at {A} (i : nat) (x : A) (l : list A) : list A :=
  take i l ++ x :: drop i l.

(** [html.escape(s)] with its default [quote=True]. *)
Definition escape_char (c : char) : str :=
  if c =? 38 then lit "&amp;"
  else if c =? 60 then lit "&lt;"
  else if c =? 62 then lit "&gt;"
  else if c =? 34 then lit "&quot;"
  else if c =? 39 then lit "&#x27;"
  else [c].

Definition html_escape (s : str) : str := concat (map escape_char s).

(** [str(n)] for a non-negative integer: decimal digits, no leading zero. *)
Definition str_of_N (n : N) : str := lit (NilZero.string_of_uint (N.to_uint n)).

(** Reading a decimal numeral back. *)
Definition digit_of (c : char) : option N :=
  if (48 <=? c) && (c <=? 57) then Some (c - 48) else None.

Fixpoint N_of_decimal (acc : N) (s : str) : option N :=
  match s with
  | [] => Some acc
  | c :: s' =>
      match digit_of c with
      | Some d => N_of_decimal (10 * acc + d) s'
      | None => None
      end
  end.

Definition N_of_str (s : str) : option N :=
  match s with
  | [] => None
  | _ => N_of_decimal 0 s
  end.

(** The size in bytes of the UTF-8 encoding of a text. *)
Definition utf8_width (c : char) : N :=
  if c <? 128 then 1 else if c <? 2048 then 2 else if c <? 65536 then 3 else 4.

Definition utf8_size (s : str) : N := fold_right (fun c n => utf8_width c + n) 0 s.

(** ** Regular expressions

    The pattern of [remove_existing_item], once compiled, is a sequence of
    three kinds of operation.  [match_here] is the backtracking matcher of
    [re]: a greedy repeat tries the longest run first, a lazy repeat the
    shortest, and the first alternative for which the rest of the pattern
    matches wins.  The result is the text left after the match. *)
Inductive atom :=
  | Lit (s : str)      (* literal text *)
  | SpaceStar          (* \s*  *)
  | AnyLazy.           (* .*?  under re.DOTALL *)

Fixpoint match_here (p : list atom) (s : str) {struct p} : option str :=
  match p with
  | [] => Some s
  | Lit l :: p' =>
      match strip_prefix l s with
      | Some r => match_here p' r
      | None => None
      end
  | SpaceStar :: p' =>
      (fix greedy (s : str) : option str :=
         match s with
         | c :: s' =>
             if isspace c then
               match greedy s' with
               | Some r => Some r
               | None => match_here p' s
               end
             else match_here p' s
         | [] => match_here p' s
         end) s
  | AnyLazy :: p' =>
      (fix lazy (s : str) : option str :=
         match match_here p' s with
         | Some r => Some r
         | None =>
             match s with
             | _ :: s' => lazy s'
             | [] => None
             end
         end) s
  end.

(** The texts a pattern can match, read declaratively. *)
Inductive matches : list atom -> str -> Prop :=
  | matches_nil : matches [] []
  | matches_lit l k m : matches k m -> matches (Lit l :: k) (l ++ m)
  | matches_space w k m :
      forallb isspace w = true -> matches k m -> matches (SpaceStar :: k) (w ++ m)
  | matches_any w k m : matches k m -> matches (AnyLazy :: k) (w ++ m).

(** The text does not begin with whitespace. *)
Definition starts_solid (s : str) : Prop :=
  match s with
  | c :: _ => isspace c = false
  | [] => True
  end.

(** [re.sub] with the empty replacement: every match, found from the
    left, is deleted.  An empty match deletes nothing and the scan moves on
    by one character.  [skip] counts the characters of the current match
    that are still to be deleted. *)
Fixpoint sub_from (p : list atom) (skip : nat) (s : str) : str :=
  match s with
  | [] => []
  | c :: s' =>
      match skip with
      | S k => sub_from p k s'
      | O =>
          match match_here p s with
          | Some r =>
              match (length s - length r)%nat with
              | S k => sub_from p k s'
              | O => c :: sub_from p 0 s'
              end
          | None => c :: sub_from p 0 s'
          end
      end
  end.

Definition re_sub_delete (p : list atom) (s : str) : str := sub_from p 0 s.

(** ** Files, environment and process

    [pathlib] is taken as an interface: how a path is parsed, joined and
    printed is the library's business.  A file system maps the paths that
    exist to what is there. *)
Class Pathlib (Path : Type) `{Countable Path} := {
  path_of : str -> Path;            (* Path(s) *)
  joinpath : Path -> str -> Path;   (* p / s *)
  parent : Path -> Path;            (* p.parent *)
  parents : Path -> list Path;      (* p.parents *)
  path_str : Path -> str;           (* str(p) *)
  new_dir_size : N                  (* st_size of a directory just made *)
}.

(** What a path names: a file with its size in bytes and its text, or
    [None] where reading it raises [OSError]; or a directory.  The files
    that are read hold valid UTF-8. *)
Inductive node :=
  | File (st_size : N) (text : option str)
  | Directory (st_size : N).

Inductive exit_arg :=
  | ExitCode (n : N)
  | ExitMessage (s : str).

Inductive exn :=
  | SystemExit (a : exit_arg)
  | OSError.

Inductive result (A : Type) :=
  | Ok (a : A)
  | Raise (e : exn).
Arguments Ok {A} a.
Arguments Raise {A} e.

(** How a run ends: normally, by a [SystemExit] that reaches the top
    level, or by an uncaught [OSError] (a traceback, whose text is not
    modelled, and status 1). *)
Inductive outcome :=
  | Finished
  | Exited (status : N)
  | Crashed.

Definition exit_status (o : outcome) : N :=
  match o with
  | Finished => 0
  | Exited n => n
  | Crashed => 1
  end.

Record Args := {
  version : str;
  dist_dir : str;
  update_dir : str;
  download_base : str;
  min_system_version : str;
  notes_file : str
}.

Section Script.
Context {Path : Type} `{Pathlib Path}.

Record run := {
  files : gmap Path node;
  stdout : str;
  stderr : str;
  ending : outcome
}.

(** [p.exists()], [p.read_text(encoding="utf-8")] ([None]: an [OSError]),
    [p.stat().st_size] ([None]: [FileNotFoundError]),
    [p.write_text(s, encoding="utf-8")] and
    [p.mkdir(parents=True, exist_ok=True)].  Writing and making directories
    are taken to succeed. *)
Definition path_exists (fs : gmap Path node) (p : Path) : bool :=
  match fs !! p with
  | Some _ => true
  | None => false
  end.

Definition read_text (fs : gmap Path node) (p : Path) : option str :=
  match fs !! p with
  | Some (File _ (Some s)) => Some s
  | _ => None
  end.

Definition stat_size (fs : gmap Path node) (p : Path) : option N :=
  match fs !! p with
  | Some (File n _) => Some n
  | Some (Directory n) => Some n
  | None => None
  end.

Definition write_text (fs : gmap Path node) (p : Path) (s : str) : gmap Path node :=
  <[p := File (utf8_size s) (Some s)]> fs.

Definition mkdir_one (p : Path) (fs : gmap Path node) : gmap Path node :=
  if path_exists fs p then fs else <[p := Directory new_dir_size]> fs.

Definition mkdir_parents (fs : gmap Path node) (p : Path) : gmap Path node :=
  foldr mkdir_one fs (p :: parents p).

(** *** The script *)

Definition slash (c : char) : bool := c =? 47.

Definition base_template (base_link : str) : str :=
  lit "<?xml version=" ++ dq ++ lit "1.0" ++ dq ++ lit " encoding=" ++ dq
    ++ lit "UTF-8" ++ dq ++ lit "?>" ++ nl
  ++ lit "<rss xmlns:sparkle=" ++ dq
    ++ lit "http://www.andymatuschak.org/xml-namespaces/sparkle" ++ dq
    ++ lit " version=" ++ dq ++ lit "2.0" ++ dq ++ lit ">" ++ nl
  ++ lit "  <channel>" ++ nl
  ++ lit "    <title>App Detective Updates</title>" ++ nl
  ++ lit "    <link>" ++ base_link ++ lit "</link>" ++ nl
  ++ lit "    <description>Release notes and downloads for App Detective.</description>" ++ nl
  ++ lit "    <language>en</language>" ++ nl
  ++ lit "  </channel>" ++ nl
  ++ lit "</rss>" ++ nl.

Definition ensure_base_appcast (appcast_path : Path) (download_base : str)
    (fs : gmap Path node) : gmap Path node :=
  if path_exists fs appcast_path then fs
  else
    let base_link := rstrip_by slash download_base ++ lit "/appcast.xml" in
    let template := base_template base_link in
    let fs := mkdir_parents fs (parent appcast_path) in
    write_text fs appcast_path template.

(** Returns what was printed on the error stream and the result. *)
Definition file_size_string (fs : gmap Path node) (zip_path : Path) : str * result str :=
  match stat_size fs zip_path with
  | Some size => ([], Ok (str_of_N size))
  | None =>
      (lit "Zip file not found at " ++ path_str zip_path ++ nl,
       Raise (SystemExit (ExitCode 1)))
  end.

Definition default_notes : str := lit "<p>Bug fixes and improvements.</p>".

Definition load_notes (fs : gmap Path node) (notes_path : option Path) : str :=
  match notes_path with
  | None => default_notes
  | Some p =>
      if negb (path_exists fs p) then default_notes
      else
        match read_text fs p with
        | None => default_notes
        | Some raw =>
            if negb (truthy (strip raw)) then default_notes
            else lit "<pre>" ++ nl ++ html_escape raw ++ nl ++ lit "</pre>"
        end
  end.

End Script.

Definition marker : str := lit "</channel>".

Definition version_tag (version : str) : str :=
  lit "<sparkle:version>" ++ version ++ lit "</sparkle:version>".

Definition item_open : str := lit "<item>".
Definition title_open : str := lit "<title>App Detective ".
Definition item_close : str := lit "</item>".

(** The compiled pattern; [re.escape(version)] makes the version a literal. *)
Definition item_pattern (version : str) : list atom :=
  [ SpaceStar; Lit item_open; SpaceStar; Lit title_open;
    AnyLazy; Lit (version_tag version); AnyLazy; Lit item_close ].

Definition remove_existing_item (contents version : str) : str :=
  re_sub_delete (item_pattern version) contents.

Definition malformed_message : str := lit "Malformed appcast: missing </channel> marker".

Definition append_item (contents item : str) : result str :=
  if negb (contains marker contents)
  then Raise (SystemExit (ExitMessage malformed_message))
  else Ok (replace marker (item ++ nl ++ lit "  " ++ marker) contents).

Definition attr (name value : str) : str := name ++ lit "=" ++ dq ++ value ++ dq.

Definition enclosure_attrs (download_url file_size : str)
    (signatures : gmap string str) : list str :=
  let enclosure_attrs :=
    [ attr (lit "url") download_url;
      attr (lit "sparkle:os") (lit "macos");
      attr (lit "length") file_size;
      attr (lit "type") (lit "application/octet-stream") ] in
  let enclosure_attrs :=
    match signatures !! "ed25519"%string with
    | Some (c :: v) =>
        list_insert_at 1 (attr (lit "sparkle:edSignature") (c :: v)) enclosure_attrs
    | _ => enclosure_attrs
    end in
  match signatures !! "ed25519sha3"%string with
  | Some (c :: v) =>
      list_insert_at 2 (attr (lit "sparkle:edSignature31") (c :: v)) enclosure_attrs
  | _ => enclosure_attrs
  end.

(** [pub_date] is what [rfc822_now()] returns when the item is built. *)
Definition build_item (version short_version download_url file_size notes
    min_system : str) (signatures : gmap string str) (pub_date : str) : str :=
  let enclosure :=
    join (nl ++ lit "        ") (enclosure_attrs download_url file_size signatures) in
  lit "    <item>" ++ nl
  ++ lit "      <title>App Detective " ++ short_version ++ lit "</title>" ++ nl
  ++ lit "      <description>" ++ nl
  ++ lit "        <![CDATA[" ++ nl
  ++ lit "        " ++ notes ++ nl
  ++ lit "        ]]>" ++ nl
  ++ lit "      </description>" ++ nl
  ++ lit "      <pubDate>" ++ pub_date ++ lit "</pubDate>" ++ nl
  ++ lit "      <sparkle:version>" ++ version ++ lit "</sparkle:version>" ++ nl
  ++ lit "      <sparkle:shortVersionString>" ++ short_version
    ++ lit "</sparkle:shortVersionString>" ++ nl
  ++ lit "      <enclosure" ++ nl
  ++ lit "        " ++ enclosure ++ nl
  ++ lit "      />" ++ nl
  ++ lit "      <sparkle:minimumSystemVersion>" ++ min_system
    ++ lit "</sparkle:minimumSystemVersion>" ++ nl
  ++ lit "    </item>" ++ nl.

(** The [signatures] dictionary [main] fills from the environment. *)
Definition signatures_of (environ : gmap string str) : gmap string str :=
  let signatures : gmap string str := ∅ in
  let signatures :=
    match environ !! "SIGNATURE"%string with
    | Some sig => if truthy sig then <["ed25519"%string := sig]> signatures else signatures
    | None => signatures
    end in
  match environ !! "SIGNATURE31"%string with
  | Some sig31 =>
      if truthy sig31 then <["ed25519sha3"%string := sig31]> signatures else signatures
  | None => signatures
  end.

Section Main.
Context {Path : Type} `{Pathlib Path}.

(** Where [main] looks for the release notes. *)
Definition resolve_notes_path (args : Args) (fs : gmap Path node) : option Path :=
  if truthy (strip (notes_file args)) then Some (path_of (notes_file args))
  else
    let fallback :=
      joinpath (joinpath (path_of (update_dir args)) (lit "notes"))
               (version args ++ lit ".md") in
    if path_exists fs fallback then Some fallback else None.

Definition zip_path_of (args : Args) : Path :=
  joinpath (path_of (dist_dir args)) (lit "AppDetective-" ++ version args ++ lit ".zip").

Definition appcast_path_of (args : Args) : Path :=
  joinpath (path_of (update_dir args)) (lit "appcast.xml").

(** The item [main] composes, given the size string and the notes. *)
Definition main_item (args : Args) (environ : gmap string str) (now : str)
    (file_size notes_html : str) : str :=
  let short_version := default (version args) (environ !! "SHORT_VERSION"%string) in
  let min_system_version :=
    default (min_system_version args) (environ !! "MIN_SYSTEM_VERSION"%string) in
  let signatures := signatures_of environ in
  let download_url :=
    rstrip_by slash (download_base args)
    ++ lit "/AppDetective-" ++ version args ++ lit ".zip" in
  build_item (version args) short_version download_url file_size notes_html
    min_system_version signatures now.

(** What the interpreter does with an exception that reaches the top
    level, after [err] has been printed on the error stream. *)
Definition uncaught (fs : gmap Path node) (err : str) (e : exn) : run :=
  match e with
  | SystemExit (ExitCode n) =>
      {| files := fs; stdout := []; stderr := err; ending := Exited n |}
  | SystemExit (ExitMessage m) =>
      {| files := fs; stdout := []; stderr := err ++ m ++ nl; ending := Exited 1 |}
  | OSError =>
      {| files := fs; stdout := []; stderr := err; ending := Crashed |}
  end.

(** [main], from the parsed arguments, the environment, the clock reading
    and the file system, to the run's result. *)
Definition main (args : Args) (environ : gmap string str) (now : str)
    (fs : gmap Path node) : run :=
  let zip_path := zip_path_of args in
  let appcast_path := appcast_path_of args in
  let fs := ensure_base_appcast appcast_path (download_base args) fs in
  let notes_path := resolve_notes_path args fs in
  let notes_html := load_notes fs notes_path in
  match file_size_string fs zip_path with
  | (err, Raise e) => uncaught fs err e
  | (err, Ok file_size) =>
      match read_text fs appcast_path with
      | None => uncaught fs err OSError
      | Some contents =>
          let contents := remove_existing_item contents (version args) in
          let item := main_item args environ now file_size notes_html in
          match append_item contents item with
          | Raise e => uncaught fs err e
          | Ok updated =>
              {| files := write_text fs appcast_path updated;
                 stdout := lit "Updated appcast at " ++ path_str appcast_path
                           ++ lit " with version " ++ version args ++ nl;
                 stderr := err;
                 ending := Finished |}
          end
      end
  end.

End Main.

(** ** A concrete [pathlib] and sample feeds

    Relative POSIX paths as lists of components: the instance of the
    interface on which the concrete runs below are evaluated. *)
Definition components (s : str) : list str := List.filter truthy (split (lit "/") s).

Definition ancestors (p : list str) : list (list str) :=
  map (fun n => take n p) (rev (seq 0 (length p))).

#[export] Instance component_paths : Pathlib (list str) := {|
  path_of := components;
  joinpath p s := p ++ components s;
  parent p := removelast p;
  parents := ancestors;
  path_str := join (lit "/");
  new_dir_size := 4096
|}.

Definition sample_now : str := lit "Mon, 02 Nov 2026 10:00:00 +0000".

(** The entry the script composes for a version, with no signatures and
    the default notes. *)
Definition sample_entry (v : str) : str :=
  build_item v v (lit "https://example.com/AppDetective-" ++ v ++ lit ".zip")
    (lit "5242880") default_notes (lit "13.0") ∅ sample_now.

(** What the script writes back once [item] is composed. *)
Definition publish (contents item : str) : str :=
  match append_item contents item with
  | Ok updated => updated
  | Raise _ => contents
  end.

(** The bootstrap document, then the feed after releasing 1.0, then 1.1. *)
Definition feed0 : str := base_template (lit "https://example.com/appcast.xml").
Definition feed1 : str := publish feed0 (sample_entry (lit "1.0")).
Definition feed2 : str := publish feed1 (sample_entry (lit "1.1")).

Definition sample_args : Args := {|
  version := lit "1.1";
  dist_dir := lit "dist";
  update_dir := lit "updates";
  download_base := lit "https://example.com/";
  min_system_version := lit "13.0";
  notes_file := []
|}.

(** A file system holding the feed [doc] and the packaged release. *)
Definition release_files (doc : str) : gmap (list str) node :=
  <[appcast_path_of sample_args := File (utf8_size doc) (Some doc)]>
    {[ zip_path_of sample_args := File 5242880 None ]}.


(** ** Vocabulary of the statements *)


(** The interpolated fields carry no markup of their own: no [<] in any of
    them, no whitespace in the version, and notes that do not spell the
    version field of [V]. *)
Definition plain_fields (V sv url size notes minsys date : str)
    (sigs : gmap string str) : Prop :=
  lacks 60 V = true /\ no_space V = true /\
  lacks 60 sv = true /\ lacks 60 url = true /\ lacks 60 size = true /\
  lacks 60 minsys = true /\ lacks 60 date = true /\
  (forall k v, sigs !! k = Some v -> lacks 60 v = true) /\
  occurrences (version_tag V) notes = 0%nat.


(** ** The publication date

    [rfc822_now] formats the UTC clock reading with [strftime].  The
    reading is the broken-down time [strftime] works on; the directives
    are the seven of the script's format, in the C locale, and [%Y] is
    the plain numeral, which is what every platform prints from the year
    1000 on. *)
Record struct_time := {
  tm_year : N; tm_mon : N; tm_mday : N;
  tm_hour : N; tm_min : N; tm_sec : N;
  tm_wday : N
}.

Definition day_abbr (wday : N) : str :=
  nth (N.to_nat wday)
    (map lit ["Mon"; "Tue"; "Wed"; "Thu"; "Fri"; "Sat"; "Sun"]%string) [].

Definition month_abbr (mon : N) : str :=
  nth (N.to_nat (mon - 1))
    (map lit ["Jan"; "Feb"; "Mar"; "Apr"; "May"; "Jun";
              "Jul"; "Aug"; "Sep"; "Oct"; "Nov"; "Dec"]%string) [].

Definition pad2 (n : N) : str := if n <? 10 then lit "0" ++ str_of_N n else str_of_N n.

(** [%a], [%b], [%d], [%Y], [%H], [%M], [%S]. *)
Definition directive (d : char) (t : struct_time) : str :=
  if d =? 97 then day_abbr (tm_wday t)
  else if d =? 98 then month_abbr (tm_mon t)
  else if d =? 100 then pad2 (tm_mday t)
  else if d =? 89 then str_of_N (tm_year t)
  else if d =? 72 then pad2 (tm_hour t)
  else if d =? 77 then pad2 (tm_min t)
  else if d =? 83 then pad2 (tm_sec t)
  else [37; d].

Fixpoint strftime (format : str) (t : struct_time) : str :=
  match format with
  | [] => []
  | c :: rest =>
      if c =? 37 then
        match rest with
        | d :: rest' => directive d t ++ strftime rest' t
        | [] => [c]
        end
      else c :: strftime rest t
  end.

(** [now] is [datetime.now(timezone.utc)]. *)
Definition rfc822_now (now : struct_time) : str :=
  strftime (lit "%a, %d %b %Y %H:%M:%S +0000") now.

(** The readings a [datetime] can hold, from the year 1000 on; Monday is
    day 0 of the week. *)
Definition valid_time (t : struct_time) : bool :=
  (1000 <=? tm_year t) && (tm_year t <=? 9999)
  && (1 <=? tm_mon t) && (tm_mon t <=? 12)
  && (1 <=? tm_mday t) && (tm_mday t <=? 31)
  && (tm_hour t <=? 23) && (tm_min t <=? 59) && (tm_sec t <=? 59)
  && (tm_wday t <=? 6).

Definition sample_time : struct_time :=
  {| tm_year := 2026; tm_mon := 11; tm_mday := 2;
     tm_hour := 10; tm_min := 0; tm_sec := 0; tm_wday := 0 |}.

(** The numbers below [k], to check a property of small numbers by
    evaluation. *)
Definition below (k : N) : list N := map N.of_nat (seq 0 (N.to_nat k)).

(** ** More vocabulary *)

(** What the pattern of [remove_existing_item] asks of the text [b] after
    an [<item>]: the title prefix after optional whitespace, later the
    version field of [V], later [</item>]; the result is the text after
    that [</item>]. *)
Definition entry_end (V b : str) : option str :=
  match strip_prefix title_open (lstrip b) with
  | None => None
  | Some r2 =>
      match partition (version_tag V) r2 with
      | None => None
      | Some (_, r3) =>
          match partition item_close r3 with
          | None => None
          | Some (_, post) => Some post
          end
      end
  end.

(** A continuation that fails on a text fails on every end of it. *)
Definition fails_on_suffixes (k : list atom) : Prop :=
  forall u v : str, match_here k (u ++ v) = None -> match_here k v = None.

Definition cdata_end : str := lit "]]>".

Definition channel_open : str := lit "<channel>".

(** The same arguments with another [--download-base]. *)
Definition with_download_base (base : str) (args : Args) : Args :=
  {| version := version args; dist_dir := dist_dir args; update_dir := update_dir args;
     download_base := base; min_system_version := min_system_version args;
     notes_file := notes_file args |}.

(** The same arguments with another [--min-system-version], the field of
    the item that holds it, and an environment in which the variable is
    set to the empty text. *)
Definition with_min_system_version (min_system : str) (args : Args) : Args :=
  {| version := version args; dist_dir := dist_dir args; update_dir := update_dir args;
     download_base := download_base args; min_system_version := min_system;
     notes_file := notes_file args |}.

Definition min_system_field (value : str) : str :=
  lit "<sparkle:minimumSystemVersion>" ++ value ++ lit "</sparkle:minimumSystemVersion>".

Definition empty_min_system : gmap string str :=
  {[ "MIN_SYSTEM_VERSION"%string := [] ]}.



(** *** Feeds the script has produced

    A feed is produced by the script when it is the bootstrap skeleton
    around a link without [<], or the result of an update of a produced
    feed with plain fields and notes loaded by [load_notes]. *)
Section Produced.
Context {Path : Type} `{Pathlib Path}.

Inductive produced : str -> Prop :=
| produced_bootstrap (link : str) :
    lacks 60 link = true -> produced (base_template link)
| produced_update (doc V sv url size minsys date : str) (sigs : gmap string str)
      (fs : gmap Path node) (notes_path : option Path) (updated : str) :
    produced doc ->
    plain_fields V sv url size (load_notes fs notes_path) minsys date sigs ->
    append_item (remove_existing_item doc V)
      (build_item V sv url size (load_notes fs notes_path) minsys sigs date)
    = Ok updated ->
    produced updated.

End Produced.

Arguments produced Path {_ _} _.

(** What follows the closing channel tag in the skeleton, and the
    skeleton before that tag. *)
Definition feed_tail : str := nl ++ lit "</rss>" ++ nl.

Definition skeleton_head (link : str) : str :=
  lit "<?xml version=" ++ dq ++ lit "1.0" ++ dq ++ lit " encoding=" ++ dq
    ++ lit "UTF-8" ++ dq ++ lit "?>" ++ nl
  ++ lit "<rss xmlns:sparkle=" ++ dq
    ++ lit "http://www.andymatuschak.org/xml-namespaces/sparkle" ++ dq
    ++ lit " version=" ++ dq ++ lit "2.0" ++ dq ++ lit ">" ++ nl
  ++ lit "  <channel>" ++ nl
  ++ lit "    <title>App Detective Updates</title>" ++ nl
  ++ lit "    <link>" ++ link ++ lit "</link>" ++ nl
  ++ lit "    <description>Release notes and downloads for App Detective.</description>" ++ nl
  ++ lit "    <language>en</language>" ++ nl
  ++ lit "  ".

(** The invariant of produced feeds.  In a tame text every [<] is followed
    by a character that is neither whitespace nor [<], and every [</] by a
    character that is neither of these nor [c]: no closing channel tag
    starts in it, and none can come up when a part after whitespace or
    before [<] is cut out.  A settled feed is a tame text followed by the
    closing channel tag and the end of the skeleton. *)
Definition opens (s : str) : bool :=
  match s with
  | [] => false
  | d :: s' =>
      if d =? 47 then
        match s' with
        | [] => false
        | e :: _ => negb (isspace e) && negb (e =? 60) && negb (e =? 99)
        end
      else negb (isspace d) && negb (d =? 60)
  end.

Fixpoint tame (s : str) : bool :=
  match s with
  | [] => true
  | c :: s' => (negb (c =? 60) || opens s') && tame s'
  end.

Definition settled (doc : str) : Prop :=
  exists h, doc = h ++ marker ++ feed_tail /\ tame h = true.

(** No end of [p] opens [rest] and [p] ends no opening of [rest]. *)
Definition clear_of (p rest : str) : bool :=
  forallb (fun k => negb (bool_decide (take k rest `suffix_of` p))
                    && negb (bool_decide (p `suffix_of` take k rest)))
    (seq 1 (length rest)).

(** *** More samples *)

(** An entry for 1.0 that is never closed. *)
Definition unfinished_entry : str :=
  lit "<item><title>App Detective 1.0</title><sparkle:version>1.0</sparkle:version>".


(** *** Feeds as lists of entries

    An entry is what [build_item] is given; [entries] is the text of a
    list of entries as [append_item] leaves them one after the other,
    each followed by the newline and the two spaces inserted with it. *)
Record entry := {
  e_version : str; e_short : str; e_url : str; e_size : str; e_notes : str;
  e_minsys : str; e_sigs : gmap string str; e_date : str
}.

Definition entry_of (V sv url size notes minsys date : str) (sigs : gmap string str) : entry :=
  {| e_version := V; e_short := sv; e_url := url; e_size := size; e_notes := notes;
     e_minsys := minsys; e_sigs := sigs; e_date := date |}.

Definition compose (e : entry) : str :=
  build_item (e_version e) (e_short e) (e_url e) (e_size e) (e_notes e)
    (e_minsys e) (e_sigs e) (e_date e).

Definition entries (es : list entry) : str :=
  concat (map (fun e => compose e ++ nl ++ lit "  ") es).

(** No [<] in the interpolated fields of the entry, and notes that hold
    neither the version field of [V] nor [</item>]. *)
Definition plain_entry (V : str) (e : entry) : Prop :=
  lacks 60 (e_version e) = true /\ lacks 60 (e_short e) = true /\
  lacks 60 (e_url e) = true /\ lacks 60 (e_size e) = true /\
  lacks 60 (e_minsys e) = true /\ lacks 60 (e_date e) = true /\
  (forall k v, e_sigs e !! k = Some v -> lacks 60 v = true) /\
  occurrences (version_tag V) (e_notes e) = 0%nat /\
  occurrences item_close (e_notes e) = 0%nat.

(** The entries after the last entry for [V]; [None] when there is no
    entry for [V]. *)
Fixpoint after_last (V : str) (es : list entry) : option (list entry) :=
  match es with
  | [] => None
  | e :: es' =>
      match after_last V es' with
      | Some later => Some later
      | None => if bool_decide (e_version e = V) then Some es' else None
      end
  end.

(** How every composed item starts. *)
Definition item_lead : str :=
  lit "    " ++ item_open ++ nl ++ lit "      " ++ title_open.

(** [sample_entry] as an entry. *)
Definition sample_record (v : str) : entry :=
  entry_of v v (lit "https://example.com/AppDetective-" ++ v ++ lit ".zip")
    (lit "5242880") default_notes (lit "13.0") sample_now ∅.

(** * Properties *)

(** ** The text operations *)

Lemma strip_prefix_app (p r : str) : strip_prefix p (p ++ r) = Some r.
Proof.
  induction p as [|a p IH]; simpl; [done|].
  by rewrite N.eqb_refl.
Qed.

Lemma strip_prefix_Some (p s r : str) : strip_prefix p s = Some r -> s = p ++ r.
Proof.
  revert s; induction p as [|a p IH]; intros [|b s]; simpl; try congruence.
  destruct (N.eqb_spec a b) as [->|]; [|done].
  intros Hs. by rewrite (IH _ Hs).
Qed.

Lemma starts_with_strip (p s : str) :
  starts_with p s = match strip_prefix p s with Some _ => true | None => false end.
Proof.
  revert s; induction p as [|a p IH]; intros [|b s]; simpl; try done.
  destruct (a =? b); simpl; auto.
Qed.

Lemma starts_with_app (p r : str) : starts_with p (p ++ r) = true.
Proof. by rewrite starts_with_strip, strip_prefix_app. Qed.

Lemma starts_with_true (p s : str) : starts_with p s = true -> exists r, s = p ++ r.
Proof.
  rewrite starts_with_strip. destruct (strip_prefix p s) as [r|] eqn:E; [|done].
  intros _. exists r. by apply strip_prefix_Some.
Qed.

Lemma starts_with_same_prefix (v a b : str) :
  starts_with (v ++ a) (v ++ b) = starts_with a b.
Proof. induction v as [|c v IH]; simpl; [done|]. by rewrite N.eqb_refl. Qed.

Lemma starts_with_extend (p s t : str) :
  starts_with p s = true -> starts_with p (s ++ t) = true.
Proof.
  intros [r ->]%starts_with_true. rewrite <- app_assoc. apply starts_with_app.
Qed.

Lemma partition_Some (p s a b : str) :
  partition p s = Some (a, b) -> s = a ++ p ++ b.
Proof.
  revert a; induction s as [|c s IH]; intros a; simpl.
  - destruct (strip_prefix p []) eqn:E; [|done].
    intros [= <- <-]. by apply strip_prefix_Some in E.
  - destruct (strip_prefix p (c :: s)) eqn:E.
    + intros [= <- <-]. by apply strip_prefix_Some in E.
    + destruct (partition p s) as [[a' b']|]; [|done].
      intros [= <- <-]. simpl. f_equal. by apply IH.
Qed.

(** [partition] splits at the first occurrence: the pattern does not occur
    at any earlier position. *)
Lemma partition_first (p s a b : str) :
  partition p s = Some (a, b) ->
  forall a1 a2, a = a1 ++ a2 -> a2 <> [] -> strip_prefix p (a2 ++ p ++ b) = None.
Proof.
  revert a; induction s as [|c s IH]; intros a; simpl.
  - destruct (strip_prefix p []) eqn:E; [|done].
    intros [= <- <-] a1 a2 Ha. by destruct a1, a2.
  - destruct (strip_prefix p (c :: s)) eqn:E.
    + intros [= <- <-] a1 a2 Ha. by destruct a1, a2.
    + destruct (partition p s) as [[a' b']|] eqn:Ep; [|done].
      intros [= <- <-] a1 a2 Ha Hne.
      destruct a1 as [|c1 a1]; simpl in Ha.
      * subst a2. simpl. rewrite <- (partition_Some _ _ _ _ Ep). exact E.
      * injection Ha as -> ->. by eapply IH.
Qed.

Lemma partition_here (p r : str) : partition p (p ++ r) = Some ([], r).
Proof. destruct (p ++ r) as [|c s] eqn:E; simpl; rewrite <- E, strip_prefix_app; done. Qed.

Lemma partition_cons_miss (p : str) c s :
  strip_prefix p (c :: s) = None ->
  partition p (c :: s) = (fun '(a, b) => (c :: a, b)) <$> partition p s.
Proof.
  intros E. simpl partition at 1. rewrite E.
  by destruct (partition p s) as [[??]|].
Qed.

Lemma contains_partition (p s : str) :
  contains p s = match partition p s with Some _ => true | None => false end.
Proof.
  induction s as [|c s IH]; simpl; rewrite starts_with_strip.
  - by destruct (strip_prefix p []).
  - destruct (strip_prefix p (c :: s)); simpl; [done|].
    rewrite IH. by destruct (partition p s) as [[??]|].
Qed.

Lemma occurrences_0_contains (p s : str) :
  occurrences p s = 0%nat <-> contains p s = false.
Proof.
  induction s as [|c s IH]; simpl.
  - destruct (starts_with p []); simpl; split; (lia || done).
  - destruct (starts_with p (c :: s)); simpl; [split; (lia || done)|]. done.
Qed.

Lemma contains_app_r (p a s : str) : contains p s = true -> contains p (a ++ s) = true.
Proof.
  intros Hs. induction a as [|c a IH]; simpl; [done|].
  rewrite IH. by rewrite orb_true_r.
Qed.

Lemma contains_app_l (p s t : str) : contains p s = true -> contains p (s ++ t) = true.
Proof.
  induction s as [|c s IH]; simpl.
  - rewrite orb_false_r. intros Hp. destruct p; [|done]. by destruct t.
  - intros [Hp|Hs]%orb_true_iff.
    + pose proof (starts_with_extend _ (c :: s) t Hp) as Hx. simpl in Hx. by rewrite Hx.
    + rewrite (IH Hs). by rewrite orb_true_r.
Qed.

Lemma contains_intro (p a b : str) : contains p (a ++ p ++ b) = true.
Proof.
  apply contains_app_r. destruct (p ++ b) eqn:E; simpl; rewrite <- E.
  - by rewrite starts_with_app.
  - by rewrite starts_with_app.
Qed.

(** *** Stripping *)
Lemma lstrip_by_split f (s : str) :
  exists w, s = w ++ lstrip_by f s /\ forallb f w = true.
Proof.
  induction s as [|c s (w & Hs & Hw)]; simpl.
  - by exists [].
  - destruct (f c) eqn:Hc.
    + exists (c :: w). simpl. rewrite Hc, Hw. split; [by f_equal|done].
    + by exists [].
Qed.

Lemma rstrip_by_split f (s : str) :
  exists w, s = rstrip_by f s ++ w /\ forallb f w = true.
Proof.
  induction s as [|c s (w & Hs & Hw)]; simpl.
  - by exists [].
  - destruct (rstrip_by f s) as [|d r] eqn:Hr.
    + simpl in Hs. subst s. destruct (f c) eqn:Hc.
      * exists (c :: w). simpl. by rewrite Hc, Hw.
      * by exists w.
    + exists w. split; [|done]. simpl. by f_equal.
Qed.

Lemma rstrip_by_tail f c (t : str) :
  t <> [] -> rstrip_by f (c :: t) = c :: t -> rstrip_by f t = t.
Proof.
  simpl. intros Ht. destruct (rstrip_by f t) as [|d r] eqn:Hr.
  - destruct (f c); intros [= ]; congruence.
  - by intros [= ->].
Qed.

Lemma rstrip_by_suffix f (t1 t2 : str) :
  t2 <> [] -> rstrip_by f (t1 ++ t2) = t1 ++ t2 -> rstrip_by f t2 = t2.
Proof.
  intros Ht. induction t1 as [|c t1 IH]; simpl app; [done|].
  intros Hr. apply IH. apply (rstrip_by_tail f c); [|done].
  by destruct t1, t2.
Qed.

Lemma rstrip_by_idem f (s : str) : rstrip_by f (rstrip_by f s) = rstrip_by f s.
Proof.
  induction s as [|c s IH]; simpl; [done|].
  destruct (rstrip_by f s) as [|d r] eqn:Hr.
  - destruct (f c) eqn:Hc; simpl; [done|]. by rewrite Hc.
  - simpl in *. rewrite IH. done.
Qed.

Lemma rstrip_by_last f c (t : str) :
  rstrip_by f (c :: t) = c :: t -> t = [] -> f c = false.
Proof. intros Hr ->. simpl in Hr. by destruct (f c). Qed.

(** *** The matcher *)
Lemma match_here_lit l k (s : str) :
  match_here (Lit l :: k) s =
  match strip_prefix l s with Some r => match_here k r | None => None end.
Proof. reflexivity. Qed.

Lemma match_here_space_nil k : match_here (SpaceStar :: k) [] = match_here k [].
Proof. reflexivity. Qed.

Lemma match_here_space_cons k c (s : str) :
  match_here (SpaceStar :: k) (c :: s) =
  if isspace c then
    match match_here (SpaceStar :: k) s with
    | Some r => Some r
    | None => match_here k (c :: s)
    end
  else match_here k (c :: s).
Proof. reflexivity. Qed.

Lemma match_here_lazy k (s : str) :
  match_here (AnyLazy :: k) s =
  match match_here k s with
  | Some r => Some r
  | None => match s with _ :: s' => match_here (AnyLazy :: k) s' | [] => None end
  end.
Proof. destruct s; reflexivity. Qed.

(** After a run of whitespace that ends before a solid character, the
    greedy repeat takes the whole run when the rest of the pattern matches
    there. *)
Lemma greedy_commits k (w s r : str) :
  forallb isspace w = true -> starts_solid s ->
  match_here k s = Some r -> match_here (SpaceStar :: k) (w ++ s) = Some r.
Proof.
  intros Hw Hs Hk. induction w as [|c w IH]; simpl app.
  - destruct s as [|d s]; [by rewrite match_here_space_nil|].
    rewrite match_here_space_cons. simpl in Hs. by rewrite Hs.
  - simpl in Hw. apply andb_true_iff in Hw as [Hc Hw].
    rewrite match_here_space_cons, Hc, (IH Hw). done.
Qed.

(** A lazy repeat before a literal stops at the first occurrence of the
    literal after which the rest of the pattern matches. *)
Lemma lazy_first_occurrence p k (s a b r : str) :
  partition p s = Some (a, b) -> match_here k b = Some r ->
  match_here (AnyLazy :: Lit p :: k) s = Some r.
Proof.
  intros Hp Hk. revert a Hp. induction s as [|c s IH]; intros a; simpl partition.
  - destruct (strip_prefix p []) eqn:E; [|done]. intros [= <- <-].
    rewrite match_here_lazy, match_here_lit, E, Hk. done.
  - destruct (strip_prefix p (c :: s)) eqn:E.
    + intros [= <- <-]. rewrite match_here_lazy, match_here_lit, E, Hk. done.
    + destruct (partition p s) as [[a' b']|] eqn:Ep; [|done]. intros [= <- <-].
      rewrite match_here_lazy, match_here_lit, E. by eapply IH.
Qed.

(** The matcher only returns what the pattern allows: the text consumed
    is in the language of the pattern. *)
Lemma match_here_sound p : forall (s r : str),
  match_here p s = Some r -> exists m, s = m ++ r /\ matches p m.
Proof.
  induction p as [|[l| |] k IH]; intros s r.
  - intros [= ->]. exists []. split; [done|constructor].
  - rewrite match_here_lit. destruct (strip_prefix l s) as [u|] eqn:E; [|done].
    intros (m & -> & Hm)%IH. apply strip_prefix_Some in E as ->.
    exists (l ++ m). split; [by rewrite <- app_assoc|by constructor].
  - induction s as [|c s IHs].
    + rewrite match_here_space_nil. intros (m & Hs & Hm)%IH.
      exists m. split; [done|]. by apply (matches_space []).
    + rewrite match_here_space_cons.
      assert (match_here k (c :: s) = Some r ->
              exists m, c :: s = m ++ r /\ matches (SpaceStar :: k) m) as Hhere.
      { intros (m & Hs & Hm)%IH. exists m. split; [done|]. by apply (matches_space []). }
      destruct (isspace c) eqn:Hc; [|done].
      destruct (match_here (SpaceStar :: k) s) as [r'|] eqn:E; [|done].
      intros [= ->]. destruct (IHs eq_refl) as (m & -> & Hm).
      exists (c :: m). split; [done|].
      inversion Hm as [| |w k' m' Hw Hm'|]; subst.
      apply (matches_space (c :: w)); [|done]. simpl. by rewrite Hc.
  - induction s as [|c s IHs]; rewrite match_here_lazy.
    + destruct (match_here k []) as [r'|] eqn:E; [|done].
      intros [= ->]. apply IH in E as (m & Hs & Hm).
      exists m. split; [done|]. by apply (matches_any []).
    + destruct (match_here k (c :: s)) as [r'|] eqn:E.
      * intros [= ->]. apply IH in E as (m & Hs & Hm).
        exists m. split; [done|]. by apply (matches_any []).
      * intros (m & -> & Hm)%IHs. exists (c :: m). split; [done|].
        inversion Hm as [| | |w k' m' Hm']; subst.
        by apply (matches_any (c :: w)).
Qed.

Lemma sub_from_skip p k (s : str) : sub_from p k s = sub_from p 0 (drop k s).
Proof.
  revert k; induction s as [|c s IH]; intros [|k]; try done.
  simpl sub_from at 1. by rewrite IH.
Qed.

Lemma sub_from_cons p c (s : str) :
  sub_from p 0 (c :: s) =
  match match_here p (c :: s) with
  | Some r =>
      match (length (c :: s) - length r)%nat with
      | S k => sub_from p k s
      | O => c :: sub_from p 0 s
      end
  | None => c :: sub_from p 0 s
  end.
Proof. reflexivity. Qed.

(** The scan deletes a match and goes on after it; it keeps the text in
    which no match starts. *)
Lemma sub_from_match p (m r : str) :
  m <> [] -> match_here p (m ++ r) = Some r ->
  sub_from p 0 (m ++ r) = sub_from p 0 r.
Proof.
  destruct m as [|c m]; [done|]. intros _ Hm.
  change ((c :: m) ++ r) with (c :: (m ++ r)) in *.
  rewrite sub_from_cons, Hm.
  replace (length (c :: m ++ r) - length r)%nat with (S (length m))
    by (simpl; rewrite length_app; lia).
  rewrite sub_from_skip. by rewrite drop_app_length.
Qed.

Lemma sub_from_miss p (t rest : str) :
  (forall t1 t2, t = t1 ++ t2 -> t2 <> [] -> match_here p (t2 ++ rest) = None) ->
  sub_from p 0 (t ++ rest) = t ++ sub_from p 0 rest.
Proof.
  induction t as [|c t IH]; intros Hmiss; [done|].
  change ((c :: t) ++ rest) with (c :: (t ++ rest)).
  pose proof (Hmiss [] (c :: t) eq_refl ltac:(done)) as H0.
  change ((c :: t) ++ rest) with (c :: (t ++ rest)) in H0.
  rewrite sub_from_cons, H0. simpl. f_equal. apply IH. intros t1 t2 -> Hne.
  by apply (Hmiss (c :: t1) t2).
Qed.

(** *** The item pattern *)
(** Where the item pattern matches, and what it consumes: whitespace, the
    opening tag, whitespace, the title prefix, anything up to the first
    version field of [V], anything up to the first closing tag after it. *)
Lemma item_pattern_match V (w b r2 x r3 y post : str) :
  forallb isspace w = true ->
  lstrip b = title_open ++ r2 ->
  partition (version_tag V) r2 = Some (x, r3) ->
  partition item_close r3 = Some (y, post) ->
  match_here (item_pattern V) (w ++ item_open ++ b) = Some post.
Proof.
  intros Hw Hb Hx Hy. unfold item_pattern.
  destruct (lstrip_by_split isspace b) as (w2 & Hb2 & Hw2).
  fold (lstrip b) in Hb2. rewrite Hb in Hb2.
  apply greedy_commits; [done|done|].
  rewrite match_here_lit, strip_prefix_app, Hb2.
  apply greedy_commits; [done|done|].
  rewrite match_here_lit, strip_prefix_app.
  eapply lazy_first_occurrence; [exact Hx|].
  eapply lazy_first_occurrence; [exact Hy|done].
Qed.

(** No match starts inside a text that ends with a solid character and in
    which no opening tag begins. *)
Lemma item_pattern_miss k (t rest : str) :
  t <> [] -> rstrip t = t ->
  (forall t1 t2, t = t1 ++ t2 -> t2 <> [] -> strip_prefix item_open (t2 ++ rest) = None) ->
  match_here (SpaceStar :: Lit item_open :: k) (t ++ rest) = None.
Proof.
  induction t as [|c t IH]; [done|]. intros _ Hr Hmiss.
  change ((c :: t) ++ rest) with (c :: (t ++ rest)).
  pose proof (Hmiss [] (c :: t) eq_refl ltac:(done)) as H0.
  change ((c :: t) ++ rest) with (c :: (t ++ rest)) in H0.
  rewrite match_here_space_cons, match_here_lit, H0.
  destruct (isspace c) eqn:Hc; [|done].
  destruct t as [|d t].
  - by rewrite (rstrip_by_last _ _ _ Hr eq_refl) in Hc.
  - assert (match_here (SpaceStar :: Lit item_open :: k) ((d :: t) ++ rest) = None) as ->;
      [|done].
    apply IH; [done| |].
    + by apply (rstrip_by_tail isspace c).
    + intros t1 t2 Ht Hne. apply (Hmiss (c :: t1) t2); [|done]. by rewrite Ht.
Qed.

(** One step of the removal, in terms of [partition]: when the first
    [<item>] is followed by the title prefix, later by the version field of
    [V] and later by [</item>], everything from the whitespace before that
    [<item>] through that [</item>] goes, and the removal continues on what
    follows. *)
Theorem remove_first_entry (doc V a b r2 x r3 y post : str) :
  partition item_open doc = Some (a, b) ->
  lstrip b = title_open ++ r2 ->
  partition (version_tag V) r2 = Some (x, r3) ->
  partition item_close r3 = Some (y, post) ->
  remove_existing_item doc V = rstrip a ++ remove_existing_item post V.
Proof.
  intros Ha Hb Hx Hy. unfold remove_existing_item, re_sub_delete.
  destruct (rstrip_by_split isspace a) as (w & Hsplit & Hw). fold (rstrip a) in Hsplit.
  pose proof (partition_Some _ _ _ _ Ha) as Hdoc.
  pose proof (partition_Some _ _ _ _ Hx) as Hr2.
  pose proof (partition_Some _ _ _ _ Hy) as Hr3.
  pose proof (item_pattern_match V w b r2 x r3 y post Hw Hb Hx Hy) as Hm.
  destruct (lstrip_by_split isspace b) as (w2 & Hb2 & Hw2).
  fold (lstrip b) in Hb2. rewrite Hb in Hb2.
  set (m := w ++ item_open ++ w2 ++ title_open ++ x ++ version_tag V ++ y ++ item_close).
  assert (w ++ item_open ++ b = m ++ post) as Hmp.
  { unfold m. rewrite Hb2, Hr2, Hr3. by rewrite <- !app_assoc. }
  assert (doc = rstrip a ++ m ++ post) as ->.
  { rewrite <- Hmp, Hdoc. rewrite Hsplit at 1. by rewrite <- app_assoc. }
  rewrite sub_from_miss.
  - f_equal. apply sub_from_match.
    + unfold m. destruct w; done.
    + by rewrite <- Hmp.
  - intros t1 t2 Ht Hne. rewrite <- Hmp.
    apply item_pattern_miss; [done| |].
    + eapply rstrip_by_suffix; [done|]. rewrite <- Ht. apply rstrip_by_idem.
    + intros u1 u2 -> Hu. rewrite app_assoc.
      eapply (partition_first _ _ _ _ Ha (t1 ++ u1) (u2 ++ w)).
      * rewrite Hsplit at 1. rewrite Ht. by rewrite <- !app_assoc.
      * by destruct u2.
Qed.

Lemma item_pattern_needs_tag V (s r : str) :
  match_here (item_pattern V) s = Some r -> contains (version_tag V) s = true.
Proof.
  intros (m & -> & Hm)%match_here_sound. unfold item_pattern in Hm.
  repeat match goal with
  | H : matches (_ :: _) _ |- _ => inversion H; clear H; subst
  end.
  rewrite <- ?app_assoc.
  do 5 (rewrite app_assoc). rewrite <- (app_assoc _ (version_tag V)).
  apply contains_intro.
Qed.

Lemma contains_suffix (p t1 t2 : str) : contains p (t1 ++ t2) = false -> contains p t2 = false.
Proof.
  intros Hc. destruct (contains p t2) eqn:E; [|done].
  by rewrite (contains_app_r _ t1 _ E) in Hc.
Qed.

(** A text that does not hold the version field of [V] is left as it is. *)
Theorem remove_without_entry (s V : str) :
  contains (version_tag V) s = false -> remove_existing_item s V = s.
Proof.
  intros Hc. unfold remove_existing_item, re_sub_delete.
  rewrite <- (app_nil_r s) at 1. rewrite sub_from_miss; [by rewrite app_nil_r|].
  intros t1 t2 -> Hne. rewrite app_nil_r.
  destruct (match_here (item_pattern V) t2) as [r|] eqn:E; [|done].
  apply item_pattern_needs_tag in E. by rewrite (contains_suffix _ _ _ Hc) in E.
Qed.

(** *** Counting occurrences *)
Lemma lacks_app c (a b : str) : lacks c (a ++ b) = lacks c a && lacks c b.
Proof. apply forallb_app. Qed.

Lemma occurrences_nil c (p : str) : occurrences (c :: p) [] = 0%nat.
Proof. reflexivity. Qed.

Lemma occurrences_miss (p : str) c (s : str) n :
  starts_with p (c :: s) = false -> occurrences p s = n -> occurrences p (c :: s) = n.
Proof. intros Hm <-. simpl. by rewrite Hm. Qed.

Lemma occurrences_hit (p : str) c (s : str) n :
  starts_with p (c :: s) = true -> occurrences p s = n -> occurrences p (c :: s) = S n.
Proof. intros Hm <-. simpl. by rewrite Hm. Qed.

Lemma occurrences_skip c0 (p f s : str) n :
  lacks c0 f = true -> occurrences (c0 :: p) s = n -> occurrences (c0 :: p) (f ++ s) = n.
Proof.
  intros Hf <-. induction f as [|d f IH]; [done|].
  simpl in Hf. apply andb_true_iff in Hf as [Hd Hf].
  change ((d :: f) ++ s) with (d :: (f ++ s)).
  apply occurrences_miss; [|by apply IH].
  simpl. rewrite N.eqb_sym. by destruct (d =? c0).
Qed.

Lemma starts_with_boundary c (p t s : str) :
  lacks c p = true -> starts_with p (t ++ c :: s) = starts_with p t.
Proof.
  revert t; induction p as [|a p IH]; intros t Hp; [by destruct t|].
  simpl in Hp. apply andb_true_iff in Hp as [Ha Hp].
  destruct t as [|d t]; simpl.
  - by destruct (a =? c).
  - by rewrite IH.
Qed.

(** No occurrence straddles a character that the pattern does not hold
    past its first position. *)
Lemma occurrences_boundary_add c0 c (p a s : str) :
  lacks c p = true ->
  occurrences (c0 :: p) (a ++ c :: s) =
  (occurrences (c0 :: p) a + occurrences (c0 :: p) (c :: s))%nat.
Proof.
  intros Hp. induction a as [|d a IH]; [done|].
  change ((d :: a) ++ c :: s) with (d :: (a ++ c :: s)).
  cbn [occurrences starts_with]. rewrite IH, (starts_with_boundary c p a s Hp).
  destruct ((c0 =? d) && starts_with p a); simpl; lia.
Qed.

Lemma occurrences_boundary c0 c (p a s : str) n :
  lacks c p = true -> occurrences (c0 :: p) a = 0%nat ->
  occurrences (c0 :: p) (c :: s) = n -> occurrences (c0 :: p) (a ++ c :: s) = n.
Proof. intros Hp Ha <-. by rewrite occurrences_boundary_add, Ha. Qed.

Lemma occurrences_app_0 (p a b : str) :
  occurrences p (a ++ b) = 0%nat -> occurrences p a = 0%nat /\ occurrences p b = 0%nat.
Proof.
  rewrite !occurrences_0_contains. intros Hc. split.
  - destruct (contains p a) eqn:E; [|done]. by rewrite (contains_app_l _ _ b E) in Hc.
  - by eapply contains_suffix.
Qed.

Lemma lacks_cons c d (s : str) : lacks c (d :: s) = negb (d =? c) && lacks c s.
Proof. reflexivity. Qed.

Ltac solve_lacks :=
  repeat first
    [ assumption | reflexivity | rewrite lacks_app | rewrite lacks_cons
    | apply andb_true_intro; split ].

Lemma lt_free_enclosure (url size : str) (sigs : gmap string str) :
  lacks 60 url = true -> lacks 60 size = true ->
  (forall k v, sigs !! k = Some v -> lacks 60 v = true) ->
  lacks 60 (join (nl ++ lit "        ") (enclosure_attrs url size sigs)) = true.
Proof.
  intros Hu Hs Hsig. unfold enclosure_attrs, attr.
  destruct (sigs !! "ed25519"%string) as [[|c1 v1]|] eqn:E1;
  destruct (sigs !! "ed25519sha3"%string) as [[|c2 v2]|] eqn:E2;
  try (pose proof (Hsig _ _ E1)); try (pose proof (Hsig _ _ E2));
  try remember (c1 :: v1) as s1; try remember (c2 :: v2) as s2;
  cbn [list_insert_at take drop app join]; solve_lacks.
Qed.

(** Counting along a text: [occ_scan] passes over the characters at which
    the pattern visibly fails and over the fields without [<];
    [expose_text] first spells the literals out. *)
Ltac occ_scan :=
  repeat first
    [ apply occurrences_miss; [reflexivity|]
    | apply occurrences_skip; [assumption|] ].

Ltac expose_text :=
  unfold version_tag, marker, item_open, item_close, title_open, nl, dq;
  repeat match goal with
  | |- context [lit ?s] => let v := eval vm_compute in (lit s) in change (lit s) with v
  end;
  cbn [app].

Lemma no_space_lacks c (s : str) : isspace c = true -> no_space s = true -> lacks c s = true.
Proof.
  intros Hc. unfold no_space, lacks. induction s as [|d s IH]; simpl; [done|].
  intros [Hd Hs]%andb_true_iff. rewrite (IH Hs), andb_true_r.
  destruct (N.eqb_spec d c) as [->|]; [|done]. by rewrite Hc in Hd.
Qed.



(** *** [replace], [split] and [join] *)
Lemma replace_from_skip old new k (s : str) :
  replace_from old new k s = replace_from old new 0 (drop k s).
Proof.
  revert k; induction s as [|c s IH]; intros [|k]; try done.
  simpl replace_from at 1. by rewrite IH.
Qed.

Lemma replace_cons old new c (s : str) :
  replace old new (c :: s) =
  if starts_with old (c :: s)
  then new ++ replace_from old new (pred (length old)) s
  else c :: replace old new s.
Proof. reflexivity. Qed.

Lemma replace_hit old new (r : str) :
  old <> [] -> replace old new (old ++ r) = new ++ replace old new r.
Proof.
  destruct old as [|c old]; [done|]. intros _.
  change ((c :: old) ++ r) with (c :: (old ++ r)).
  rewrite replace_cons.
  change (c :: (old ++ r)) with ((c :: old) ++ r). rewrite starts_with_app.
  rewrite replace_from_skip. simpl length. simpl pred.
  by rewrite drop_app_length.
Qed.

Lemma replace_miss old new c (s : str) :
  starts_with old (c :: s) = false -> replace old new (c :: s) = c :: replace old new s.
Proof. intros Hm. by rewrite replace_cons, Hm. Qed.

Lemma replace_partition old new (s a b : str) :
  old <> [] -> partition old s = Some (a, b) ->
  replace old new s = a ++ new ++ replace old new b.
Proof.
  intros Hold. revert a; induction s as [|c s IH]; intros a; simpl partition.
  - destruct (strip_prefix old []) eqn:E; [|done]. intros [= <- <-].
    apply strip_prefix_Some in E. by destruct old.
  - destruct (strip_prefix old (c :: s)) eqn:E.
    + intros [= <- <-]. apply strip_prefix_Some in E. rewrite E.
      by apply replace_hit.
    + destruct (partition old s) as [[a' b']|] eqn:Ep; [|done]. intros [= <- <-].
      rewrite replace_miss by (by rewrite starts_with_strip, E).
      simpl. f_equal. by apply IH.
Qed.

Lemma replace_absent old new (s : str) :
  contains old s = false -> replace old new s = s.
Proof.
  induction s as [|c s IH]; [done|]. simpl contains.
  intros [Hm Hs]%orb_false_iff. rewrite replace_miss by done. f_equal. by apply IH.
Qed.

Lemma split_from_skip sep k (s : str) :
  split_from sep k s = split_from sep 0 (drop k s).
Proof.
  revert k; induction s as [|c s IH]; intros [|k]; try done.
  simpl split_from at 1. by rewrite IH.
Qed.

Lemma split_cons sep c (s : str) :
  split sep (c :: s) =
  if starts_with sep (c :: s)
  then [] :: split_from sep (pred (length sep)) s
  else match split sep s with
       | x :: rest => (c :: x) :: rest
       | [] => [[c]]
       end.
Proof. reflexivity. Qed.

Lemma split_hit sep (r : str) : sep <> [] -> split sep (sep ++ r) = [] :: split sep r.
Proof.
  destruct sep as [|c sep]; [done|]. intros _.
  change ((c :: sep) ++ r) with (c :: (sep ++ r)).
  rewrite split_cons.
  change (c :: (sep ++ r)) with ((c :: sep) ++ r). rewrite starts_with_app.
  rewrite split_from_skip. simpl length. simpl pred.
  by rewrite drop_app_length.
Qed.

Lemma split_nonempty sep (s : str) : split sep s <> [].
Proof.
  induction s as [|c s IH]; [done|]. rewrite split_cons.
  destruct (starts_with sep (c :: s)); [done|]. by destruct (split sep s).
Qed.

(** Induction along the scan of [replace] and [split]: stepping over one
    character, or over a whole occurrence. *)
Lemma scan_ind (sep : str) (P : str -> Prop) :
  sep <> [] ->
  P [] ->
  (forall c s, starts_with sep (c :: s) = false -> P s -> P (c :: s)) ->
  (forall r, P r -> P (sep ++ r)) ->
  forall s, P s.
Proof.
  intros Hsep Hnil Hmiss Hhit s.
  induction s as [s IH] using (induction_ltof1 _ (@length N)). unfold ltof in IH.
  destruct s as [|c s]; [done|].
  destruct (starts_with sep (c :: s)) eqn:E.
  - apply starts_with_true in E as [r Hr]. rewrite Hr. apply Hhit, IH.
    rewrite Hr, length_app. destruct sep; [done|]. simpl. lia.
  - apply Hmiss; [done|]. apply IH. simpl. lia.
Qed.

Lemma join_cons sep (x : str) (rest : list str) :
  rest <> [] -> join sep (x :: rest) = x ++ sep ++ join sep rest.
Proof. by destruct rest. Qed.

Lemma join_cons_head sep c (x : str) (rest : list str) :
  join sep ((c :: x) :: rest) = c :: join sep (x :: rest).
Proof. by destruct rest. Qed.

Lemma join_split sep (s : str) : sep <> [] -> join sep (split sep s) = s.
Proof.
  intros Hsep. revert s.
  apply (scan_ind sep); [done|done|intros c s Hm IH|intros r IH].
  - rewrite split_cons, Hm. pose proof (split_nonempty sep s) as Hne.
    destruct (split sep s) as [|x rest]; [done|].
    rewrite join_cons_head. by f_equal.
  - rewrite split_hit by done. rewrite join_cons by apply split_nonempty.
    simpl. by rewrite IH.
Qed.

Lemma replace_join_split sep new (s : str) :
  sep <> [] -> replace sep new s = join new (split sep s).
Proof.
  intros Hsep. revert s.
  apply (scan_ind sep); [done|done|intros c s Hm IH|intros r IH].
  - rewrite replace_miss, split_cons, Hm by done.
    pose proof (split_nonempty sep s) as Hne.
    destruct (split sep s) as [|x rest]; [done|].
    rewrite join_cons_head. by f_equal.
  - rewrite replace_hit, split_hit by done.
    rewrite join_cons by apply split_nonempty. simpl. by rewrite IH.
Qed.

(** The pieces of [split] do not hold the separator. *)
Lemma split_pieces_clean sep (s : str) :
  sep <> [] -> Forall (fun x => contains sep x = false) (split sep s).
Proof.
  intros Hsep. revert s.
  apply (scan_ind sep); [done| |intros c s Hm IH|intros r IH].
  - constructor; [|done]. by destruct sep.
  - pose proof (join_split sep s Hsep) as Hj.
    rewrite split_cons, Hm. pose proof (split_nonempty sep s) as Hne.
    destruct (split sep s) as [|x rest]; [done|].
    apply Forall_cons in IH as [Hx Hrest]. constructor; [|done].
    simpl contains. rewrite Hx, orb_false_r.
    destruct (starts_with sep (c :: x)) eqn:E; [|done].
    destruct rest as [|y rest].
    + simpl in Hj. by rewrite Hj, Hm in E.
    + rewrite join_cons in Hj by done. rewrite <- Hj in Hm.
      pose proof (starts_with_extend _ (c :: x) (sep ++ join sep (y :: rest)) E) as Hx'.
      simpl in Hx'. simpl in Hm. by rewrite Hx' in Hm.
  - rewrite split_hit by done. constructor; [|done]. by destruct sep.
Qed.

Lemma occurrences_marker_hit (r : str) :
  occurrences marker (marker ++ r) = S (occurrences marker r).
Proof.
  expose_text. apply occurrences_hit; [apply (starts_with_app marker)|].
  occ_scan. reflexivity.
Qed.

Lemma split_marker_length (s : str) :
  length (split marker s) = S (occurrences marker s).
Proof.
  revert s. apply (scan_ind marker); [done|done|intros c s Hm IH|intros r IH].
  - rewrite split_cons, Hm. pose proof (split_nonempty marker s) as Hne.
    destruct (split marker s) as [|x rest]; [done|].
    simpl in *. rewrite Hm. done.
  - rewrite split_hit by done. rewrite occurrences_marker_hit. simpl. by rewrite IH.
Qed.

(** *** Decimal numerals *)
Lemma N_of_decimal_uint (d : Decimal.uint) (acc : positive) :
  N_of_decimal (Npos acc) (lit (NilEmpty.string_of_uint d)) = Some (Npos (Pos.of_uint_acc d acc)).
Proof.
  revert acc; induction d; intros acc; [done|..];
    cbn [NilEmpty.string_of_uint lit N_of_decimal Pos.of_uint_acc];
    match goal with
    | |- context [digit_of ?c] =>
        let v := eval vm_compute in (digit_of c) in change (digit_of c) with v
    end; cbv iota; rewrite <- IHd; f_equal; lia.
Qed.

Lemma N_of_decimal_zero (d : Decimal.uint) :
  N_of_decimal 0 (lit (NilEmpty.string_of_uint d)) = Some (Pos.of_uint d).
Proof.
  induction d; [done|..];
    cbn [NilEmpty.string_of_uint lit N_of_decimal Pos.of_uint];
    match goal with
    | |- context [digit_of ?c] =>
        let v := eval vm_compute in (digit_of c) in change (digit_of c) with v
    end; cbv iota; [exact IHd|..]; apply N_of_decimal_uint.
Qed.

(** [str(n)] reads back as [n]. *)
Lemma N_of_str_of_N (n : N) : N_of_str (str_of_N n) = Some n.
Proof.
  unfold str_of_N, N_of_str.
  assert (N.to_uint n <> Decimal.Nil) as Hnil.
  { destruct n; [done|]. apply DecimalPos.Unsigned.to_uint_nonnil. }
  assert (NilZero.string_of_uint (N.to_uint n) = NilEmpty.string_of_uint (N.to_uint n)) as ->.
  { by destruct (N.to_uint n). }
  destruct (lit (NilEmpty.string_of_uint (N.to_uint n))) eqn:E.
  - by destruct (N.to_uint n).
  - rewrite <- E, N_of_decimal_zero. f_equal.
    apply (DecimalN.Unsigned.of_to n).
Qed.

(** *** Blank texts *)
Lemma lstrip_by_all f (s : str) : forallb f s = true -> lstrip_by f s = [].
Proof.
  induction s as [|c s IH]; simpl; [done|].
  intros [Hc Hs]%andb_true_iff. rewrite Hc. by apply IH.
Qed.

Lemma rstrip_by_nil f (s : str) : rstrip_by f s = [] <-> forallb f s = true.
Proof.
  induction s as [|c s IH]; simpl; [done|].
  destruct (rstrip_by f s) as [|d r] eqn:E.
  - destruct IH as [IH _]. rewrite (IH eq_refl), andb_true_r. by destruct (f c).
  - destruct IH as [_ IH]. split; [done|]. intros [_ Hs]%andb_true_iff. by apply IH in Hs.
Qed.

Lemma lstrip_by_solid f c (s : str) : f c = false -> lstrip_by f (c :: s) = c :: s.
Proof. simpl. by intros ->. Qed.


(** ** The script's functions *)

Lemma marker_nonempty : marker <> [].
Proof. discriminate. Qed.

(** With a single marker, [append_item] inserts once, right before it. *)
Lemma append_item_once (contents item h t : str) :
  partition marker contents = Some (h, t) -> contains marker t = false ->
  append_item contents item = Ok (h ++ (item ++ nl ++ lit "  " ++ marker) ++ t).
Proof.
  intros Hp Ht. unfold append_item.
  rewrite contains_partition, Hp. simpl negb. cbv iota.
  rewrite (replace_partition _ _ _ _ _ marker_nonempty Hp).
  by rewrite (replace_absent _ _ _ Ht).
Qed.


Lemma contains_within (p a b s : str) : s = a ++ p ++ b -> contains p s = true.
Proof. intros ->. apply contains_intro. Qed.

Lemma join_app sep (l1 l2 : list str) :
  l1 <> [] -> l2 <> [] -> join sep (l1 ++ l2) = join sep l1 ++ sep ++ join sep l2.
Proof.
  intros H1 H2. induction l1 as [|x l1 IH]; [done|].
  destruct l1 as [|y l1].
  - simpl app. by rewrite join_cons.
  - change ((x :: y :: l1) ++ l2) with (x :: ((y :: l1) ++ l2)).
    rewrite !join_cons by done. rewrite IH by done. by rewrite <- !app_assoc.
Qed.

(** Whatever the signatures, the attribute list ends with the length and
    the type, and no other attribute is a length. *)
Lemma enclosure_attrs_length (url size : str) (sigs : gmap string str) :
  exists front,
    front <> [] /\
    enclosure_attrs url size sigs
    = front ++ [attr (lit "length") size; attr (lit "type") (lit "application/octet-stream")] /\
    List.filter (starts_with (lit "length=")) (enclosure_attrs url size sigs)
    = [attr (lit "length") size].
Proof.
  unfold enclosure_attrs.
  destruct (sigs !! "ed25519"%string) as [[|c1 v1]|];
  destruct (sigs !! "ed25519sha3"%string) as [[|c2 v2]|];
  cbn [list_insert_at take drop app];
  match goal with
  | |- exists front, _ /\ [?a; ?b; _; _] = _ /\ _ => exists [a; b]
  | |- exists front, _ /\ [?a; ?b; ?c; _; _] = _ /\ _ => exists [a; b; c]
  | |- exists front, _ /\ [?a; ?b; ?c; ?d; _; _] = _ /\ _ => exists [a; b; c; d]
  end;
  (split; [done|split; reflexivity]).
Qed.


Ltac occ_count :=
  repeat first
    [ apply occurrences_miss; [reflexivity|]
    | apply occurrences_hit; [reflexivity|]
    | apply occurrences_skip; [assumption|] ];
  reflexivity.


(** ** The file system *)

Section Runs.
Context {Path : Type} `{Pathlib Path}.
Implicit Types (fs : gmap Path node) (args : Args) (environ : gmap string str).

Lemma ensure_base_appcast_existing fs (p : Path) base :
  path_exists fs p = true -> ensure_base_appcast p base fs = fs.
Proof. unfold ensure_base_appcast. by intros ->. Qed.


Lemma read_text_write fs (p : Path) s : read_text (write_text fs p s) p = Some s.
Proof. unfold read_text, write_text. by rewrite lookup_insert_eq. Qed.





Lemma files_uncaught fs err e : files (uncaught fs err e) = fs.
Proof. by destruct e as [[n|m]|]. Qed.

(** The run, once the size is known and the document read. *)
Lemma main_after_gathering args environ now fs size contents :
  let fs1 := ensure_base_appcast (appcast_path_of args) (download_base args) fs in
  stat_size fs1 (zip_path_of args) = Some size ->
  read_text fs1 (appcast_path_of args) = Some contents ->
  main args environ now fs =
    match append_item (remove_existing_item contents (version args))
            (main_item args environ now (str_of_N size)
               (load_notes fs1 (resolve_notes_path args fs1))) with
    | Ok updated =>
        {| files := write_text fs1 (appcast_path_of args) updated;
           stdout := lit "Updated appcast at " ++ path_str (appcast_path_of args)
                     ++ lit " with version " ++ version args ++ nl;
           stderr := [];
           ending := Finished |}
    | Raise e => uncaught fs1 [] e
    end.
Proof.
  intros fs1 Hsize Hread. unfold main. fold fs1.
  unfold file_size_string. by rewrite Hsize, Hread.
Qed.

End Runs.

(** * The claims *)

(** ** Updating one entry among several *)

(** C1.  The claim asks that updating one version leave the entry of any
    other version untouched, in either order.  On the feed the script
    itself produces by releasing 1.0 and then 1.1, running the update for
    1.1 again deletes the 1.0 entry as well: the match of the removal
    pattern starts at the first item and runs up to the end of the 1.1
    item.  After the removal no item is left, and the document written
    back holds no 1.0 entry. *)
Theorem rerun_of_latest_version_drops_earlier_entry :
  let updated :=
    publish (remove_existing_item feed2 (lit "1.1")) (sample_entry (lit "1.1")) in
  contains (sample_entry (lit "1.0")) feed2 = true /\
  contains (sample_entry (lit "1.1")) feed2 = true /\
  contains item_open (remove_existing_item feed2 (lit "1.1")) = false /\
  contains (sample_entry (lit "1.0")) updated = false /\
  occurrences (version_tag (lit "1.0")) updated = 0%nat /\
  occurrences (version_tag (lit "1.1")) updated = 1%nat.
Proof. vm_compute. repeat split. Qed.

(** In the other order the later entry survives: updating 1.0 on the same
    feed keeps the 1.1 entry as it was. *)
Example update_of_first_entry_keeps_later_one :
  let updated :=
    publish (remove_existing_item feed2 (lit "1.0")) (sample_entry (lit "1.0")) in
  contains (sample_entry (lit "1.1")) updated = true /\
  occurrences (version_tag (lit "1.0")) updated = 1%nat.
Proof. vm_compute. split; reflexivity. Qed.




(** ** Failing runs *)

Section AnyFileSystem.
Context {Path : Type} `{Pathlib Path}.
Implicit Types (fs : gmap Path node) (args : Args) (environ : gmap string str).

(** C3, as amended.  A run that does not finish leaves the file system as
    the bootstrap step left it: the composed update is never written.  When
    the document existed before the run, nothing at all has changed. *)
Theorem failed_run_leaves_bootstrap_state args environ now fs :
  ending (main args environ now fs) <> Finished ->
  files (main args environ now fs)
    = ensure_base_appcast (appcast_path_of args) (download_base args) fs /\
  (path_exists fs (appcast_path_of args) = true ->
   files (main args environ now fs) = fs).
Proof.
  intros Hfail.
  assert (files (main args environ now fs)
          = ensure_base_appcast (appcast_path_of args) (download_base args) fs) as Hfiles.
  { revert Hfail. unfold main.
    destruct (file_size_string _ _) as [err [size|e]]; [|by rewrite files_uncaught].
    destruct (read_text _ _) as [contents|]; [|by rewrite files_uncaught].
    destruct (append_item _ _) as [updated|e]; [done|by rewrite files_uncaught]. }
  split; [done|]. intros Hex. by rewrite Hfiles, ensure_base_appcast_existing.
Qed.


(** C5.  On any text, [append_item] raises [SystemExit] with the message
    when the text holds no closing channel marker and returns otherwise.
    In a run that has found the artifact and read the document: when the
    text handed to [append_item] holds no marker, the run ends with status
    1 and the message on the error stream, and the document is still the
    text that was read; when it holds the marker, the run finishes and the
    returned text is the document. *)
Theorem missing_marker_aborts args environ now fs size contents :
  let fs1 := ensure_base_appcast (appcast_path_of args) (download_base args) fs in
  stat_size fs1 (zip_path_of args) = Some size ->
  read_text fs1 (appcast_path_of args) = Some contents ->
  let cleaned := remove_existing_item contents (version args) in
  let item := main_item args environ now (str_of_N size)
                (load_notes fs1 (resolve_notes_path args fs1)) in
  let r := main args environ now fs in
  (forall text it,
     append_item text it =
       if contains marker text
       then Ok (replace marker (it ++ nl ++ lit "  " ++ marker) text)
       else Raise (SystemExit (ExitMessage malformed_message))) /\
  if contains marker cleaned
  then exists updated,
         append_item cleaned item = Ok updated /\
         ending r = Finished /\
         read_text (files r) (appcast_path_of args) = Some updated
  else append_item cleaned item = Raise (SystemExit (ExitMessage malformed_message)) /\
       r = {| files := fs1; stdout := []; stderr := malformed_message ++ nl;
              ending := Exited 1 |} /\
       exit_status (ending r) <> 0 /\
       read_text (files r) (appcast_path_of args) = Some contents.
Proof.
  intros fs1 Hsize Hread cleaned item r.
  pose proof (main_after_gathering args environ now fs size contents Hsize Hread) as Hr.
  fold fs1 cleaned item r in Hr.
  split; [intros text it; unfold append_item; by destruct (contains marker text)|].
  unfold append_item in *. destruct (contains marker cleaned); simpl in *.
  - eexists. split; [done|]. rewrite Hr. simpl. split; [done|]. apply read_text_write.
  - split; [done|]. rewrite Hr. simpl. done.
Qed.

(** ** Release notes *)


(** ** The enclosure *)

(** C7.  For an artifact of [n] bytes, [file_size_string] returns a
    decimal numeral that reads back as [n]; the enclosure has exactly one
    length attribute, which quotes that numeral, and the composed item
    contains it. *)
Theorem length_attribute_is_byte_size (fs : gmap Path node) (zip_path : Path) (n : N)
    (version short_version url notes min_system pub_date : str)
    (signatures : gmap string str) :
  stat_size fs zip_path = Some n ->
  exists file_size,
    file_size_string fs zip_path = ([], Ok file_size) /\
    file_size = str_of_N n /\
    N_of_str file_size = Some n /\
    List.filter (starts_with (lit "length=")) (enclosure_attrs url file_size signatures)
      = [lit "length=" ++ dq ++ file_size ++ dq] /\
    contains (lit "length=" ++ dq ++ file_size ++ dq)
      (build_item version short_version url file_size notes min_system
         signatures pub_date) = true.
Proof.
  intros Hsize. exists (str_of_N n).
  destruct (enclosure_attrs_length url (str_of_N n) signatures)
    as (front & Hfront & Hattrs & Hfilter).
  split; [unfold file_size_string; by rewrite Hsize|].
  split; [done|]. split; [apply N_of_str_of_N|]. split; [exact Hfilter|].
  unfold build_item. rewrite Hattrs, join_app by done.
  rewrite join_cons by done.
  change (lit "length=" ++ dq ++ str_of_N n ++ dq) with (attr (lit "length") (str_of_N n)).
  generalize (attr (lit "length") (str_of_N n)). intros l.
  rewrite <- ?app_assoc.
  match goal with
  | |- contains l ?s = true =>
      match s with
      | context C [l ++ ?rest] =>
          let pre := context C [@nil N] in
          apply (contains_within l pre rest)
      end
  end.
  rewrite <- ?app_assoc. reflexivity.
Qed.

(** ** Bootstrap *)


End AnyFileSystem.


(** The scenario of the specification: no signature variable set. *)
Example no_signature_attributes (url size : str) :
  enclosure_attrs url size (signatures_of ∅) =
  [ attr (lit "url") url; attr (lit "sparkle:os") (lit "macos");
    attr (lit "length") size; attr (lit "type") (lit "application/octet-stream") ].
Proof. reflexivity. Qed.

(** ** Insertion at the marker *)

(** C10.  The document is its pieces between the occurrences of the
    marker, one piece more than there are occurrences and none holding the
    marker; [append_item] fails when there is no occurrence and otherwise
    returns the same pieces joined by the item followed by the marker, so
    the item is inserted once per occurrence.  With exactly one occurrence
    that is a single insertion right before the marker. *)
Theorem append_item_inserts_at_every_marker (contents item : str) :
  let pieces := split marker contents in
  join marker pieces = contents /\
  Forall (fun piece => contains marker piece = false) pieces /\
  length pieces = S (occurrences marker contents) /\
  append_item contents item =
    match occurrences marker contents with
    | O => Raise (SystemExit (ExitMessage malformed_message))
    | S _ => Ok (join (item ++ nl ++ lit "  " ++ marker) pieces)
    end /\
  (forall h t, contents = h ++ marker ++ t ->
               occurrences marker contents = 1%nat ->
               append_item contents item = Ok (h ++ item ++ nl ++ lit "  " ++ marker ++ t)).
Proof.
  intros pieces. subst pieces.
  assert (append_item contents item =
          match occurrences marker contents with
          | O => Raise (SystemExit (ExitMessage malformed_message))
          | S _ => Ok (join (item ++ nl ++ lit "  " ++ marker) (split marker contents))
          end) as Happ.
  { unfold append_item.
    destruct (occurrences marker contents) eqn:E.
    - apply occurrences_0_contains in E. by rewrite E.
    - destruct (contains marker contents) eqn:Ec.
      + simpl. by rewrite replace_join_split.
      + apply occurrences_0_contains in Ec. congruence. }
  split; [by apply join_split|].
  split; [by apply split_pieces_clean|].
  split; [apply split_marker_length|].
  split; [done|].
  intros h t -> Hone. rewrite Happ, Hone.
  rewrite <- replace_join_split by done.
  assert (occurrences marker t = 0%nat /\ partition marker (h ++ marker ++ t) = Some (h, t))
    as [Ht Hp].
  { clear Happ. induction h as [|c h IH].
    - change ([] ++ marker ++ t) with (marker ++ t) in *.
      rewrite occurrences_marker_hit in Hone.
      split; [lia|apply partition_here].
    - change ((c :: h) ++ marker ++ t) with (c :: (h ++ marker ++ t)) in *.
      cbn [occurrences] in Hone.
      destruct (starts_with marker (c :: h ++ marker ++ t)) eqn:E.
      + exfalso. pose proof (contains_intro marker h t) as Hc.
        assert (occurrences marker (h ++ marker ++ t) = 0%nat) as H0 by lia.
        apply occurrences_0_contains in H0. congruence.
      + destruct IH as [Ht Hp]; [exact Hone|]. split; [done|].
        rewrite partition_cons_miss, Hp; [done|].
        rewrite starts_with_strip in E. by destruct (strip_prefix _ _). }
  rewrite (replace_partition _ _ _ _ _ marker_nonempty Hp).
  rewrite replace_absent by (by apply occurrences_0_contains).
  by rewrite <- !app_assoc.
Qed.

(** A marker quoted in a comment counts: the item goes in twice. *)
Example two_markers_two_insertions :
  let contents := lit "<a></channel><!-- </channel> -->" in
  occurrences marker contents = 2%nat /\
  append_item contents (lit "ITEM") =
    Ok (lit "<a>ITEM" ++ nl ++ lit "  </channel><!-- ITEM" ++ nl ++ lit "  </channel> -->").
Proof. by vm_compute. Qed.

(** ** Concrete runs *)

(** C3 as stated fails on a first run without the artifact: the run ends
    with status 1, and the document, absent before, is there afterwards. *)
Lemma failed_first_run_leaves_skeleton :
  let fs : gmap (list str) node := ∅ in
  let r := main sample_args ∅ sample_now fs in
  let appcast_path := appcast_path_of sample_args in
  ending r = Exited 1 /\
  fs !! appcast_path = None /\
  read_text (files r) appcast_path = Some feed0 /\
  files r !! appcast_path <> fs !! appcast_path.
Proof.
  split; [by vm_compute|]. split; [by vm_compute|].
  assert (read_text (files (main sample_args ∅ sample_now (∅ : gmap (list str) node)))
            (appcast_path_of sample_args) = Some feed0) as Hread by (by vm_compute).
  split; [exact Hread|]. intros Heq. unfold read_text in Hread.
  rewrite Heq in Hread. by vm_compute in Hread.
Qed.

(** The amended C3 on a run against an existing feed without the
    artifact: nothing changes. *)
Lemma failed_run_leaves_bootstrap_state_witness :
  let fs : gmap (list str) node :=
    {[ appcast_path_of sample_args := File (utf8_size feed1) (Some feed1) ]} in
  files (main sample_args ∅ sample_now fs) = fs.
Proof.
  intros fs.
  apply (failed_run_leaves_bootstrap_state sample_args ∅ sample_now fs).
  - vm_compute. discriminate.
  - vm_compute. reflexivity.
Defined.

(** C4 on a run without the artifact. *)
Example missing_artifact_run :
  let r := main sample_args ∅ sample_now
             ({[ appcast_path_of sample_args := File (utf8_size feed1) (Some feed1) ]}
                : gmap (list str) node) in
  ending r = Exited 1 /\
  stderr r = lit "Zip file not found at dist/AppDetective-1.1.zip" ++ nl /\
  stdout r = [].
Proof. by vm_compute. Qed.

(** A whole run that succeeds: 1.1 is released on top of 1.0. *)
Example release_run :
  let r := main sample_args ∅ sample_now (release_files feed1) in
  ending r = Finished /\
  read_text (files r) (appcast_path_of sample_args) = Some feed2 /\
  stdout r = lit "Updated appcast at updates/appcast.xml with version 1.1" ++ nl.
Proof. by vm_compute. Qed.

(** C5 on a run against a document without the marker. *)
Lemma missing_marker_aborts_witness :
  let r := main sample_args ∅ sample_now (release_files (lit "<rss></rss>")) in
  ending r = Exited 1 /\
  stderr r = malformed_message ++ nl /\
  read_text (files r) (appcast_path_of sample_args) = Some (lit "<rss></rss>").
Proof.
  intros r.
  set (fs1 := ensure_base_appcast (appcast_path_of sample_args)
                (download_base sample_args) (release_files (lit "<rss></rss>"))).
  assert (stat_size fs1 (zip_path_of sample_args) = Some 5242880) as Hsize
    by (vm_compute; reflexivity).
  assert (read_text fs1 (appcast_path_of sample_args) = Some (lit "<rss></rss>")) as Hread
    by (vm_compute; reflexivity).
  pose proof (missing_marker_aborts sample_args ∅ sample_now
                (release_files (lit "<rss></rss>")) 5242880 (lit "<rss></rss>")
                Hsize Hread) as Hw.
  cbv zeta in Hw.
  assert (contains marker (remove_existing_item (lit "<rss></rss>") (version sample_args))
          = false) as E by (vm_compute; reflexivity).
  rewrite E in Hw. destruct Hw as (_ & _ & Hr & _ & Hread').
  fold r in Hr, Hread'. split; [by rewrite Hr|]. split; [by rewrite Hr|exact Hread'].
Defined.


(** C7 on the artifact of the specification's scenario. *)
Lemma length_attribute_is_byte_size_witness :
  exists file_size,
    file_size_string (release_files feed1) (zip_path_of sample_args) = ([], Ok file_size) /\
    file_size = str_of_N 5242880 /\
    N_of_str file_size = Some 5242880 /\
    List.filter (starts_with (lit "length="))
      (enclosure_attrs (lit "https://example.com/AppDetective-1.1.zip") file_size ∅)
      = [lit "length=" ++ dq ++ file_size ++ dq] /\
    contains (lit "length=" ++ dq ++ file_size ++ dq)
      (build_item (lit "1.1") (lit "1.1") (lit "https://example.com/AppDetective-1.1.zip")
         file_size default_notes (lit "13.0") ∅ sample_now) = true.
Proof.
  apply (length_attribute_is_byte_size (release_files feed1) (zip_path_of sample_args)).
  vm_compute. reflexivity.
Defined.

Example size_of_five_mebibytes : str_of_N 5242880 = lit "5242880".
Proof. reflexivity. Qed.



(** * Further properties *)

(** ** What the removal can do *)

Lemma sub_from_sublist p k (s : str) : sublist (sub_from p k s) s.
Proof.
  revert k. induction s as [|c s IH]; intros k; [done|].
  destruct k as [|k].
  - rewrite sub_from_cons.
    destruct (match_here p (c :: s)) as [r|].
    + destruct (length (c :: s) - length r)%nat.
      * by apply sublist_skip.
      * by apply sublist_cons.
    + by apply sublist_skip.
  - simpl. by apply sublist_cons.
Qed.

(** X1.  [remove_existing_item] only deletes: for every text and every
    version, the result is the text with some characters left out, the
    others in their order, and it is never longer than the text. *)
Theorem removal_only_deletes (contents V : str) :
  sublist (remove_existing_item contents V) contents /\
  (length (remove_existing_item contents V) <= length contents)%nat.
Proof.
  assert (sublist (remove_existing_item contents V) contents) as Hs
    by apply sub_from_sublist.
  split; [done|]. by apply sublist_length.
Qed.

Lemma item_pattern_landmarks V (t r : str) :
  match_here (item_pattern V) t = Some r ->
  contains item_open t && contains title_open t
  && contains (version_tag V) t && contains item_close t = true.
Proof.
  intros (m & -> & Hm)%match_here_sound. unfold item_pattern in Hm.
  repeat match goal with
  | H : matches (_ :: _) _ |- _ => inversion H; clear H; subst
  | H : matches [] _ |- _ => inversion H; clear H; subst
  end.
  rewrite <- !app_assoc. rewrite !andb_true_iff. repeat split.
  - apply contains_intro.
  - rewrite 3!app_assoc. rewrite <- (app_assoc _ title_open). apply contains_intro.
  - rewrite 5!app_assoc. rewrite <- (app_assoc _ (version_tag V)). apply contains_intro.
  - rewrite 7!app_assoc. rewrite <- (app_assoc _ item_close). apply contains_intro.
Qed.

(** X2.  A text that does not hold all four landmarks of the pattern, an
    [<item>], the title prefix, the version field of [V] and an
    [</item>], is returned as it is: nothing is removed from it. *)
Theorem removal_needs_every_landmark (contents V : str) :
  contains item_open contents && contains title_open contents
  && contains (version_tag V) contents && contains item_close contents = false ->
  remove_existing_item contents V = contents.
Proof.
  intros Hc. unfold remove_existing_item, re_sub_delete.
  rewrite <- (app_nil_r contents) at 1. rewrite sub_from_miss; [by rewrite app_nil_r|].
  intros t1 t2 -> Hne. rewrite app_nil_r.
  destruct (match_here (item_pattern V) t2) as [r|] eqn:E; [|done].
  apply item_pattern_landmarks in E.
  rewrite !andb_true_iff in E. destruct E as [[[E1 E2] E3] E4].
  rewrite (contains_app_r _ t1 _ E1), (contains_app_r _ t1 _ E2),
    (contains_app_r _ t1 _ E3), (contains_app_r _ t1 _ E4) in Hc. done.
Qed.

(** X2 on an entry for 1.0 that is never closed. *)
Lemma removal_needs_every_landmark_witness :
  remove_existing_item unfinished_entry (lit "1.0") = unfinished_entry.
Proof. apply removal_needs_every_landmark. by vm_compute. Defined.

(** ** The pattern as text surgery

    After [<item>] the pattern has no choice left: whitespace is taken
    greedily and a literal that is not whitespace follows, and a lazy
    [.*?] before a literal stops at the first occurrence of the literal
    whenever the rest of the pattern fails on every end of a text on which
    it fails. *)

Lemma space_then_literal c0 l k (s : str) :
  isspace c0 = false ->
  match_here (SpaceStar :: Lit (c0 :: l) :: k) s =
  match strip_prefix (c0 :: l) (lstrip s) with
  | Some r => match_here k r
  | None => None
  end.
Proof.
  intros Hc0. induction s as [|c s IH].
  - by rewrite match_here_space_nil, match_here_lit.
  - rewrite match_here_space_cons, match_here_lit. unfold lstrip in *. simpl lstrip_by.
    destruct (isspace c) eqn:Hc; [|done].
    rewrite IH.
    assert (strip_prefix (c0 :: l) (c :: s) = None) as ->.
    { simpl. destruct (N.eqb_spec c0 c) as [->|]; [congruence|done]. }
    by destruct (strip_prefix (c0 :: l) (lstrip_by isspace s)) as [r|];
      [destruct (match_here k r)|].
Qed.

Lemma partition_rest_suffix (p s s' x' r r' : str) c :
  s = c :: s' -> s = p ++ r -> partition p s' = Some (x', r') -> exists u, r = u ++ r'.
Proof.
  intros Hs Hr Hp. apply partition_Some in Hp.
  assert (p ++ r = (c :: x' ++ p) ++ r') as Heq.
  { rewrite <- Hr, Hs, Hp. simpl. by rewrite <- app_assoc. }
  apply app_eq_app in Heq as [l [[Hl _]|[_ Hl]]].
  - exfalso. apply (f_equal length) in Hl. rewrite length_app in Hl.
    simpl in Hl. rewrite length_app in Hl. lia.
  - by exists l.
Qed.

Lemma lazy_then_literal p k (s : str) :
  p <> [] -> fails_on_suffixes k ->
  match_here (AnyLazy :: Lit p :: k) s =
  match partition p s with
  | Some (_, r) => match_here k r
  | None => None
  end.
Proof.
  intros Hp Hk. induction s as [|c s IH]; rewrite match_here_lazy, match_here_lit.
  - simpl partition. destruct (strip_prefix p []) as [r|] eqn:E; [|done].
    apply strip_prefix_Some in E. by destruct p.
  - simpl partition. destruct (strip_prefix p (c :: s)) as [r|] eqn:E.
    + destruct (match_here k r) eqn:Ek; [done|].
      rewrite IH. destruct (partition p s) as [[x' r']|] eqn:Ep; [|done].
      apply strip_prefix_Some in E.
      destruct (partition_rest_suffix p (c :: s) s x' r r' c eq_refl E Ep) as [u ->].
      by apply (Hk u r').
    + rewrite IH. by destruct (partition p s) as [[x' r']|].
Qed.

Lemma nil_fails_on_suffixes : fails_on_suffixes [].
Proof. by intros u v. Qed.

Lemma lazy_literal_fails_on_suffixes p :
  p <> [] -> fails_on_suffixes [AnyLazy; Lit p].
Proof.
  intros Hp u v. rewrite !lazy_then_literal by (done || apply nil_fails_on_suffixes).
  destruct (partition p (u ++ v)) as [[??]|] eqn:E; [done|]. intros _.
  destruct (partition p v) as [[??]|] eqn:E'; [|done].
  pose proof (contains_partition p (u ++ v)) as H1. rewrite E in H1.
  pose proof (contains_partition p v) as H2. rewrite E' in H2.
  by rewrite (contains_app_r _ u _ H2) in H1.
Qed.

Lemma version_tag_nonempty V : version_tag V <> [].
Proof. discriminate. Qed.

(** The item pattern read as text surgery. *)
Lemma item_pattern_reading V (s : str) :
  match_here (item_pattern V) s =
  match strip_prefix item_open (lstrip s) with
  | Some b => entry_end V b
  | None => None
  end.
Proof.
  unfold item_pattern, entry_end.
  change item_open with (60 :: lit "item>").
  rewrite space_then_literal by done.
  destruct (strip_prefix _ (lstrip s)) as [b|]; [|done].
  change title_open with (60 :: lit "title>App Detective ").
  rewrite space_then_literal by done.
  destruct (strip_prefix _ (lstrip b)) as [r2|]; [|done].
  rewrite lazy_then_literal;
    [|apply version_tag_nonempty|by apply lazy_literal_fails_on_suffixes].
  destruct (partition (version_tag V) r2) as [[x r3]|]; [|done].
  rewrite lazy_then_literal; [|done|apply nil_fails_on_suffixes].
  by destruct (partition item_close r3) as [[y post]|].
Qed.

Lemma lstrip_by_app_solid f (a s : str) :
  match s with c :: _ => f c = false | [] => True end ->
  lstrip_by f (a ++ s) = lstrip_by f a ++ s.
Proof.
  intros Hs. induction a as [|c a IH]; simpl.
  - destruct s as [|d s]; [done|]. simpl. by rewrite Hs.
  - destruct (f c); [exact IH|done].
Qed.

Lemma item_pattern_needs_item V (t r : str) :
  match_here (item_pattern V) t = Some r -> contains item_open t = true.
Proof.
  rewrite item_pattern_reading.
  destruct (strip_prefix item_open (lstrip t)) as [b|] eqn:E; [|done]. intros _.
  apply strip_prefix_Some in E.
  destruct (lstrip_by_split isspace t) as (w & Ht & _). fold (lstrip t) in Ht.
  rewrite Ht, E. apply contains_intro.
Qed.

Lemma item_open_proper_suffix V (l t2 b : str) :
  item_open = l ++ t2 -> l <> [] -> t2 <> [] ->
  match_here (item_pattern V) (t2 ++ b) = None.
Proof.
  unfold item_open. intros Heq Hl Ht.
  do 7 (destruct l as [|? l]; [simplify_eq/=; try done|]); simplify_eq/=.
Qed.

Lemma remove_existing_item_unfold (doc V : str) :
  remove_existing_item doc V =
  match partition item_open doc with
  | None => doc
  | Some (a, b) =>
      match entry_end V b with
      | Some post => rstrip a ++ remove_existing_item post V
      | None => a ++ item_open ++ remove_existing_item b V
      end
  end.
Proof.
  destruct (partition item_open doc) as [[a b]|] eqn:Ha.
  - destruct (entry_end V b) as [post|] eqn:Hend.
    + unfold entry_end in Hend.
      destruct (strip_prefix title_open (lstrip b)) as [r2|] eqn:Hb; [|done].
      destruct (partition (version_tag V) r2) as [[x r3]|] eqn:Hx; [|done].
      destruct (partition item_close r3) as [[y post']|] eqn:Hy; [|done].
      injection Hend as ->. apply strip_prefix_Some in Hb.
      by apply (remove_first_entry doc V a b r2 x r3 y post).
    + pose proof (partition_Some _ _ _ _ Ha) as ->.
      unfold remove_existing_item, re_sub_delete.
      rewrite (app_assoc a), sub_from_miss; [by rewrite <- app_assoc|].
      intros t1 t2 Ht Hne.
      apply app_eq_app in Ht as [l [[Ha' ->]|[-> Hl]]].
      * rewrite <- app_assoc, item_pattern_reading.
        unfold lstrip. rewrite lstrip_by_app_solid by done.
        destruct (lstrip_by_split isspace l) as (w & Hw & _).
        destruct (lstrip_by isspace l) as [|d l'] eqn:El.
        -- by rewrite app_nil_l, strip_prefix_app.
        -- rewrite (partition_first _ _ _ _ Ha (t1 ++ w) (d :: l')); [done| |done].
           rewrite Ha'. rewrite Hw at 1. by rewrite <- app_assoc.
      * destruct l as [|c l].
        -- simpl in Hl. subst t2. rewrite item_pattern_reading.
           change (lstrip (item_open ++ b)) with (item_open ++ b).
           by rewrite strip_prefix_app.
        -- by apply (item_open_proper_suffix V (c :: l)).
  - unfold remove_existing_item, re_sub_delete.
    rewrite <- (app_nil_r doc) at 1. rewrite sub_from_miss; [by rewrite app_nil_r|].
    intros t1 t2 -> Hne. rewrite app_nil_r.
    destruct (match_here (item_pattern V) t2) as [r|] eqn:E; [|done].
    apply item_pattern_needs_item in E.
    pose proof (contains_partition item_open (t1 ++ t2)) as Hc. rewrite Ha in Hc.
    by rewrite (contains_app_r _ t1 _ E) in Hc.
Qed.

(** X3.  The substitution read as text surgery.  Cut the document at its
    first [<item>].  When the text after it reads as an entry for [V]
    (the title prefix after optional whitespace, later the version field
    of [V], later [</item>]), the text before the cut loses its trailing
    whitespace, the entry is dropped and the removal goes on after its
    [</item>]; otherwise the text up to and including this [<item>] is
    kept and the removal goes on after it.  Without any [<item>] the
    document is returned as it is. *)
Theorem removal_by_partition (doc V : str) :
  remove_existing_item doc V =
  match partition item_open doc with
  | None => doc
  | Some (a, b) =>
      match entry_end V b with
      | Some post => rstrip a ++ remove_existing_item post V
      | None => a ++ item_open ++ remove_existing_item b V
      end
  end.
Proof. apply remove_existing_item_unfold. Qed.

(** ** Insertion, then removal *)

(** Looking for the first occurrence along a text. *)

Lemma partition_miss (p : str) c (s a b : str) :
  starts_with p (c :: s) = false -> partition p s = Some (a, b) ->
  partition p (c :: s) = Some (c :: a, b).
Proof.
  intros Hm Hp. rewrite partition_cons_miss, Hp; [done|].
  rewrite starts_with_strip in Hm. by destruct (strip_prefix p (c :: s)).
Qed.

Lemma partition_hit (p s r : str) :
  strip_prefix p s = Some r -> partition p s = Some ([], r).
Proof. intros Hs. destruct s; simpl; by rewrite Hs. Qed.

Lemma partition_skip c0 (p f s a b : str) :
  lacks c0 f = true -> partition (c0 :: p) s = Some (a, b) ->
  partition (c0 :: p) (f ++ s) = Some (f ++ a, b).
Proof.
  intros Hf Hp. induction f as [|d f IH]; [done|].
  simpl in Hf. apply andb_true_iff in Hf as [Hd Hf].
  change ((d :: f) ++ s) with (d :: (f ++ s)).
  apply partition_miss; [|by apply IH].
  simpl. rewrite N.eqb_sym. by destruct (d =? c0).
Qed.

Lemma partition_boundary c0 c (p a0 s a b : str) :
  lacks c p = true -> occurrences (c0 :: p) a0 = 0%nat ->
  partition (c0 :: p) (c :: s) = Some (a, b) ->
  partition (c0 :: p) (a0 ++ c :: s) = Some (a0 ++ a, b).
Proof.
  intros Hp Ha Hs. induction a0 as [|d a0 IH]; [done|].
  change ((d :: a0) ++ c :: s) with (d :: (a0 ++ c :: s)).
  cbn [occurrences] in Ha.
  destruct (starts_with (c0 :: p) (d :: a0)) eqn:E; [done|].
  apply partition_miss; [|by apply IH].
  simpl in *. by rewrite starts_with_boundary.
Qed.

Ltac part_scan :=
  repeat first
    [ eapply partition_miss; [reflexivity|]
    | eapply partition_skip; [assumption|] ].

Lemma strip_tag_here (V rest : str) :
  strip_prefix (version_tag V)
    (lit "<sparkle:version>" ++ V ++ lit "</sparkle:version>" ++ rest) = Some rest.
Proof.
  unfold version_tag.
  replace (lit "<sparkle:version>" ++ V ++ lit "</sparkle:version>" ++ rest)
    with ((lit "<sparkle:version>" ++ V ++ lit "</sparkle:version>") ++ rest)
    by (by rewrite <- !app_assoc).
  apply strip_prefix_app.
Qed.

Lemma rstrip_by_app_all f (s w : str) :
  forallb f w = true -> rstrip_by f (s ++ w) = rstrip_by f s.
Proof.
  intros Hw. apply rstrip_by_nil in Hw. induction s as [|c s IH]; simpl.
  - exact Hw.
  - by rewrite IH.
Qed.

Lemma contains_false_occurrences (p s : str) :
  contains p s = false -> occurrences p s = 0%nat.
Proof. apply occurrences_0_contains. Qed.

(** Removing [V] right after an item for [V] was composed. *)
Lemma remove_composed_item (h rest V sv url size notes minsys date : str)
    (sigs : gmap string str) :
  contains item_open h = false ->
  contains (version_tag V) rest = false ->
  plain_fields V sv url size notes minsys date sigs ->
  remove_existing_item (h ++ build_item V sv url size notes minsys sigs date ++ rest) V
  = rstrip h ++ nl ++ rest.
Proof.
  intros Hh Hrest (HV & HVs & Hsv & Hurl & Hsize & Hmin & Hdate & Hsigs & Hnotes).
  pose proof (lt_free_enclosure url size sigs Hurl Hsize Hsigs) as Hencl.
  pose proof (no_space_lacks 10 V eq_refl HVs) as HVnl.
  apply contains_false_occurrences in Hh.
  unfold build_item.
  generalize dependent (join (nl ++ lit "        ") (enclosure_attrs url size sigs)).
  intros encl Hencl.
  rewrite <- ?app_assoc.
  etransitivity.
  { eapply remove_first_entry.
    - revert Hh. expose_text. intros Hh.
      eapply partition_boundary; [reflexivity|exact Hh|].
      part_scan. apply partition_hit. reflexivity.
    - reflexivity.
    - revert Hnotes. expose_text. intros Hnotes.
      part_scan.
      eapply partition_boundary; [solve_lacks|exact Hnotes|].
      part_scan. apply partition_hit. exact (strip_tag_here V _).
    - expose_text. part_scan. apply partition_hit. reflexivity. }
  rewrite (remove_without_entry (10 :: rest) V) by (simpl; by rewrite Hrest).
  unfold rstrip. rewrite rstrip_by_app_all by reflexivity. reflexivity.
Qed.

Lemma tag_absent_before_marker (V t : str) :
  contains (version_tag V) t = false ->
  contains (version_tag V) (nl ++ lit "  " ++ marker ++ t) = false.
Proof.
  intros Ht%contains_false_occurrences. apply occurrences_0_contains.
  revert Ht. expose_text. intros Ht. occ_scan. exact Ht.
Qed.

Lemma contains_prefix_false (p a b : str) :
  contains p (a ++ b) = false -> contains p a = false.
Proof.
  intros Hc. destruct (contains p a) eqn:E; [|done].
  by rewrite (contains_app_l _ _ b E) in Hc.
Qed.

(** X4.  Insertion, then removal.  On a document with a single marker and
    no [<item>] before it, [append_item] with an item composed for [V]
    from plain fields succeeds, and [remove_existing_item] for [V] takes
    the item out of the result again: what is left is the document, with
    the whitespace before the marker replaced by two newlines and two
    spaces. *)
Theorem removal_undoes_insertion (doc h t V sv url size notes minsys date : str)
    (sigs : gmap string str) :
  partition marker doc = Some (h, t) ->
  contains marker t = false ->
  contains item_open h = false ->
  contains (version_tag V) t = false ->
  plain_fields V sv url size notes minsys date sigs ->
  let item := build_item V sv url size notes minsys sigs date in
  exists updated,
    append_item doc item = Ok updated /\
    remove_existing_item updated V = rstrip h ++ nl ++ nl ++ lit "  " ++ marker ++ t.
Proof.
  intros Hp Ht Hh HVt Hplain item.
  exists (h ++ (item ++ nl ++ lit "  " ++ marker) ++ t).
  split; [by apply append_item_once|].
  rewrite <- !app_assoc.
  by apply remove_composed_item; [|apply tag_absent_before_marker|].
Qed.

Lemma sample_fields_plain (v : str) :
  lacks 60 v = true -> no_space v = true ->
  plain_fields v v (lit "https://example.com/AppDetective-" ++ v ++ lit ".zip")
    (lit "5242880") default_notes (lit "13.0") sample_now ∅.
Proof.
  intros Hv Hs. unfold plain_fields. rewrite !lacks_app, Hv.
  repeat split; try done; intros k w Hk; by rewrite lookup_empty in Hk.
Defined.

(** X4 on the bootstrap document and the entry for 1.0. *)
Lemma removal_undoes_insertion_witness :
  let ht := default ([], []) (partition marker feed0) in
  exists updated,
    append_item feed0 (sample_entry (lit "1.0")) = Ok updated /\
    remove_existing_item updated (lit "1.0")
    = rstrip (fst ht) ++ nl ++ nl ++ lit "  " ++ marker ++ snd ht.
Proof.
  intros ht. unfold sample_entry.
  apply (removal_undoes_insertion feed0 (fst ht) (snd ht) (lit "1.0") (lit "1.0")
           (lit "https://example.com/AppDetective-" ++ lit "1.0" ++ lit ".zip")
           (lit "5242880") default_notes (lit "13.0") sample_now ∅).
  - by vm_compute.
  - by vm_compute.
  - by vm_compute.
  - by vm_compute.
  - apply sample_fields_plain; by vm_compute.
Defined.

(** X5.  Running the update for [V] again on a feed whose only entry is
    the one for [V]: the same item is back before the marker, after the
    text before it with its trailing whitespace replaced by two newlines
    and two spaces; when the text before the item already ends that way,
    the feed written is the feed read. *)
Theorem rerun_normalises_whitespace (h t V sv url size notes minsys date : str)
    (sigs : gmap string str) :
  contains item_open h = false ->
  contains marker h = false ->
  contains marker t = false ->
  contains (version_tag V) t = false ->
  plain_fields V sv url size notes minsys date sigs ->
  let item := build_item V sv url size notes minsys sigs date in
  let gap := nl ++ nl ++ lit "  " in
  append_item (remove_existing_item (h ++ item ++ nl ++ lit "  " ++ marker ++ t) V) item
  = Ok (rstrip h ++ gap ++ item ++ nl ++ lit "  " ++ marker ++ t) /\
  (h = rstrip h ++ gap ->
   append_item (remove_existing_item (h ++ item ++ nl ++ lit "  " ++ marker ++ t) V) item
   = Ok (h ++ item ++ nl ++ lit "  " ++ marker ++ t)).
Proof.
  intros Hh Hmh Hmt HVt Hplain item gap.
  assert (append_item
            (remove_existing_item (h ++ item ++ nl ++ lit "  " ++ marker ++ t) V) item
          = Ok (rstrip h ++ gap ++ item ++ nl ++ lit "  " ++ marker ++ t)) as Hrun.
  { unfold item. rewrite remove_composed_item;
      [|done|by apply tag_absent_before_marker|done].
    fold item.
    destruct (rstrip_by_split isspace h) as (w & Hw & _). fold (rstrip h) in Hw.
    rewrite Hw in Hmh. apply contains_prefix_false in Hmh.
    apply contains_false_occurrences in Hmh.
    rewrite (append_item_once _ item (rstrip h ++ gap) t); [by rewrite <- !app_assoc| |done].
    unfold gap. rewrite <- ?app_assoc.
    revert Hmh. generalize (rstrip h). intros h0 Hmh. revert Hmh.
    expose_text. intros Hmh.
    eapply (partition_boundary 60 10 _ h0 _ _ t); [reflexivity|exact Hmh|].
    part_scan. apply partition_hit. reflexivity. }
  split; [exact Hrun|]. intros Hfix. rewrite Hrun. f_equal.
  rewrite Hfix at 2. by rewrite <- !app_assoc.
Qed.

(** X5 on the feed after the first release of 1.0. *)
Lemma rerun_normalises_whitespace_witness :
  let ht := default ([], []) (partition marker feed0) in
  let item := sample_entry (lit "1.0") in
  let gap := nl ++ nl ++ lit "  " in
  append_item
    (remove_existing_item (fst ht ++ item ++ nl ++ lit "  " ++ marker ++ snd ht) (lit "1.0"))
    item
  = Ok (rstrip (fst ht) ++ gap ++ item ++ nl ++ lit "  " ++ marker ++ snd ht).
Proof.
  intros ht item gap. unfold item, gap, sample_entry.
  refine (proj1 (rerun_normalises_whitespace (fst ht) (snd ht) (lit "1.0") (lit "1.0")
           (lit "https://example.com/AppDetective-" ++ lit "1.0" ++ lit ".zip")
           (lit "5242880") default_notes (lit "13.0") sample_now ∅ _ _ _ _ _)).
  - by vm_compute.
  - by vm_compute.
  - by vm_compute.
  - by vm_compute.
  - apply sample_fields_plain; by vm_compute.
Defined.

(** ** The notes *)

Lemma lacks_escape_char c d :
  c = 60 \/ c = 62 \/ c = 34 \/ c = 39 -> lacks c (escape_char d) = true.
Proof.
  intros Hc. unfold escape_char.
  destruct (N.eqb_spec d 38); [by destruct Hc as [-> | [-> | [-> | ->]]]|].
  destruct (N.eqb_spec d 60); [by destruct Hc as [-> | [-> | [-> | ->]]]|].
  destruct (N.eqb_spec d 62); [by destruct Hc as [-> | [-> | [-> | ->]]]|].
  destruct (N.eqb_spec d 34); [by destruct Hc as [-> | [-> | [-> | ->]]]|].
  destruct (N.eqb_spec d 39); [by destruct Hc as [-> | [-> | [-> | ->]]]|].
  simpl. rewrite andb_true_r. apply negb_true_iff, N.eqb_neq.
  destruct Hc as [-> | [-> | [-> | ->]]]; done.
Qed.

Lemma lacks_html_escape c (s : str) :
  c = 60 \/ c = 62 \/ c = 34 \/ c = 39 -> lacks c (html_escape s) = true.
Proof.
  intros Hc. unfold html_escape. induction s as [|d s IH]; [done|].
  simpl. rewrite lacks_app, IH, andb_true_r. by apply lacks_escape_char.
Qed.

Lemma html_escape_plain (s : str) :
  lacks 38 s = true -> lacks 60 s = true -> lacks 62 s = true ->
  lacks 34 s = true -> lacks 39 s = true -> html_escape s = s.
Proof.
  unfold html_escape. induction s as [|d s IH]; [done|].
  rewrite !lacks_cons, !andb_true_iff.
  intros [E1 ?] [E2 ?] [E3 ?] [E4 ?] [E5 ?]. simpl. rewrite IH by done.
  unfold escape_char.
  apply negb_true_iff in E1, E2, E3, E4, E5. by rewrite E1, E2, E3, E4, E5.
Qed.

Lemma lacks_In c (s : str) : lacks c s = true -> ~ In c s.
Proof.
  induction s as [|d s IH]; [by intros _ []|].
  rewrite lacks_cons, andb_true_iff. intros [Hd Hs] [->|Hin]; [|by apply IH].
  by rewrite N.eqb_refl in Hd.
Qed.

Lemma starts_with_In c (p s : str) : starts_with p s = true -> In c p -> In c s.
Proof.
  intros [r ->]%starts_with_true Hin. apply in_or_app. by left.
Qed.

Lemma occurrences_lacking c (p s : str) :
  In c p -> lacks c s = true -> occurrences p s = 0%nat.
Proof.
  intros Hin. induction s as [|d s IH]; intros Hs.
  - simpl. destruct (starts_with p []) eqn:E; [|done].
    by destruct (starts_with_In c _ _ E Hin).
  - pose proof Hs as Hs'. rewrite lacks_cons, andb_true_iff in Hs'.
    apply occurrences_miss; [|apply IH, Hs'].
    destruct (starts_with p (d :: s)) eqn:E; [|done].
    by destruct (lacks_In _ _ Hs (starts_with_In c _ _ E Hin)).
Qed.

Lemma load_notes_cases {Path : Type} `{Pathlib Path}
    (fs : gmap Path node) (notes_path : option Path) :
  load_notes fs notes_path = default_notes \/
  exists raw, load_notes fs notes_path
              = lit "<pre>" ++ nl ++ html_escape raw ++ nl ++ lit "</pre>".
Proof.
  unfold load_notes. destruct notes_path as [p|]; [|by left].
  destruct (negb (path_exists fs p)); [by left|].
  destruct (read_text fs p) as [raw|]; [|by left].
  destruct (negb (truthy (strip raw))); [by left|]. right. by exists raw.
Qed.

Lemma load_notes_landmarks {Path : Type} `{Pathlib Path}
    (fs : gmap Path node) (notes_path : option Path) (V : str) :
  let notes := load_notes fs notes_path in
  occurrences cdata_end notes = 0%nat /\
  occurrences marker notes = 0%nat /\
  occurrences item_open notes = 0%nat /\
  occurrences item_close notes = 0%nat /\
  occurrences (version_tag V) notes = 0%nat /\
  occurrences channel_open notes = 0%nat.
Proof.
  intros notes. unfold notes.
  destruct (load_notes_cases fs notes_path) as [->|[raw ->]].
  - by repeat split.
  - pose proof (lacks_html_escape 60 raw ltac:(auto)) as H60.
    pose proof (lacks_html_escape 62 raw ltac:(auto)) as H62.
    generalize dependent (html_escape raw). intros e H60 H62.
    split; [|split; [|split; [|split; [|split]]]].
    + unfold cdata_end. expose_text. occ_scan.
      rewrite (occurrences_boundary_add 93 10 _ e) by reflexivity.
      rewrite (occurrences_lacking 62 _ e) by (simpl; auto || done). reflexivity.
    + expose_text. occ_scan. reflexivity.
    + expose_text. occ_scan. reflexivity.
    + expose_text. occ_scan. reflexivity.
    + expose_text. occ_scan. reflexivity.
    + unfold channel_open. expose_text. occ_scan. reflexivity.
Qed.

(** X6.  Whatever the notes file holds, the notes [load_notes] returns
    cannot end the CDATA section they are put in, and hold neither the
    closing channel tag nor an [<item>], an [</item>] or a version
    field. *)
Theorem notes_cannot_break_the_feed {Path : Type} `{Pathlib Path}
    (fs : gmap Path node) (notes_path : option Path) (V : str) :
  let notes := load_notes fs notes_path in
  contains cdata_end notes = false /\
  contains marker notes = false /\
  contains item_open notes = false /\
  contains item_close notes = false /\
  contains (version_tag V) notes = false.
Proof.
  intros notes. unfold notes.
  destruct (load_notes_landmarks fs notes_path V) as (H1 & H2 & H3 & H4 & H5 & _).
  rewrite <- !occurrences_0_contains. done.
Qed.

(** ** Insertion *)

Lemma replace_marker_length (new s : str) :
  (length (replace marker new s) + occurrences marker s * length marker
   = length s + occurrences marker s * length new)%nat.
Proof.
  revert s. apply (scan_ind marker); [done|done|intros c s Hm IH|intros r IH].
  - rewrite replace_miss by done. cbn [occurrences]. rewrite Hm. simpl in *. lia.
  - rewrite replace_hit by done. rewrite occurrences_marker_hit, !length_app. lia.
Qed.

(** X7.  When [append_item] returns, the document returned still holds
    the marker, it holds the item, and it is longer than the document by
    the item and three characters (a newline and two spaces) for each
    occurrence of the marker. *)
Theorem append_keeps_the_feed_appendable (contents item updated : str) :
  append_item contents item = Ok updated ->
  contains marker updated = true /\
  contains item updated = true /\
  length updated
  = (length contents + occurrences marker contents * (length item + 3))%nat.
Proof.
  unfold append_item. destruct (contains marker contents) eqn:Hc; [|done].
  simpl. intros [= <-].
  rewrite contains_partition in Hc.
  destruct (partition marker contents) as [[h t]|] eqn:Hp; [|done].
  rewrite (replace_partition _ _ _ _ _ marker_nonempty Hp).
  split; [|split].
  - apply (contains_within _ (h ++ item ++ nl ++ lit "  ")
             (replace marker (item ++ nl ++ lit "  " ++ marker) t)).
    by rewrite <- !app_assoc.
  - apply (contains_within _ h
             (nl ++ lit "  " ++ marker ++ replace marker (item ++ nl ++ lit "  " ++ marker) t)).
    by rewrite <- !app_assoc.
  - rewrite <- (replace_partition _ _ _ _ _ marker_nonempty Hp).
    pose proof (replace_marker_length (item ++ nl ++ lit "  " ++ marker) contents) as Hl.
    rewrite !length_app in Hl. simpl in Hl. lia.
Qed.

(** X7 on the first release. *)
Lemma append_keeps_the_feed_appendable_witness :
  contains marker feed1 = true /\
  contains (sample_entry (lit "1.0")) feed1 = true /\
  length feed1
  = (length feed0 + occurrences marker feed0 * (length (sample_entry (lit "1.0")) + 3))%nat.
Proof.
  apply (append_keeps_the_feed_appendable feed0 (sample_entry (lit "1.0")) feed1).
  by vm_compute.
Defined.

(** ** Whole runs *)

Lemma forallb_replicate {A} (f : A -> bool) (x : A) k :
  f x = true -> forallb f (replicate k x) = true.
Proof. intros Hx. induction k; simpl; [done|]. by rewrite Hx. Qed.

(** X8.  Slashes at the end of [--download-base] make no difference to a
    run: its files, its output and its ending are the same with any
    number of them added. *)
Theorem trailing_slashes_are_ignored {Path : Type} `{Pathlib Path}
    (args : Args) (environ : gmap string str) (now : str) (fs : gmap Path node) (k : nat) :
  main (with_download_base (download_base args ++ replicate k 47) args) environ now fs
  = main args environ now fs.
Proof.
  assert (rstrip_by slash (download_base args ++ replicate k 47)
          = rstrip_by slash (download_base args)) as Hs
    by (apply rstrip_by_app_all; by apply forallb_replicate).
  unfold main, ensure_base_appcast, main_item, resolve_notes_path, zip_path_of,
    appcast_path_of. simpl. by rewrite Hs.
Qed.

Section MoreRuns.
Context {Path : Type} `{Pathlib Path}.
Implicit Types (fs : gmap Path node) (args : Args) (environ : gmap string str).

Lemma mkdirs_lookup (ps : list Path) fs (q : Path) :
  foldr mkdir_one fs ps !! q = fs !! q \/
  (fs !! q = None /\ q ∈ ps /\ foldr mkdir_one fs ps !! q = Some (Directory new_dir_size)).
Proof.
  induction ps as [|p ps IH]; [by left|]. simpl. unfold mkdir_one at 1 3.
  destruct (path_exists (foldr mkdir_one fs ps) p) eqn:Hp.
  - destruct IH as [IH|(? & ? & IH)]; [by left|right].
    split; [done|]. split; [by apply elem_of_cons; right|done].
  - destruct (decide (p = q)) as [->|Hne].
    + rewrite lookup_insert_eq. unfold path_exists in Hp.
      destruct IH as [IH|(? & ? & IH)]; [|by rewrite IH in Hp].
      right. rewrite IH in Hp. destruct (fs !! q); [done|].
      split; [done|]. split; [by apply elem_of_cons; left|done].
    + rewrite lookup_insert_ne by done.
      destruct IH as [IH|(? & ? & IH)]; [by left|right].
      split; [done|]. split; [by apply elem_of_cons; right|done].
Qed.

Lemma files_of_main args environ now fs :
  let fs1 := ensure_base_appcast (appcast_path_of args) (download_base args) fs in
  files (main args environ now fs) = fs1 \/
  exists updated, files (main args environ now fs)
                  = write_text fs1 (appcast_path_of args) updated.
Proof.
  intros fs1. unfold main. fold fs1.
  destruct (file_size_string _ _) as [err [size|e]]; [|left; apply files_uncaught].
  destruct (read_text _ _) as [contents|]; [|left; apply files_uncaught].
  destruct (append_item _ _) as [updated|e]; [|left; apply files_uncaught].
  right. by exists updated.
Qed.

(** X9.  A run leaves every path other than the feed document as it was,
    except that, when the document did not exist, missing directories
    above it are created. *)
Theorem main_touches_only_the_feed args environ now fs (q : Path) :
  q <> appcast_path_of args ->
  let r := main args environ now fs in
  let dirs := parent (appcast_path_of args) :: parents (parent (appcast_path_of args)) in
  files r !! q = fs !! q \/
  (fs !! q = None /\ path_exists fs (appcast_path_of args) = false /\
   q ∈ dirs /\ files r !! q = Some (Directory new_dir_size)).
Proof.
  intros Hq r dirs.
  set (fs1 := ensure_base_appcast (appcast_path_of args) (download_base args) fs).
  assert (files r !! q = fs1 !! q) as ->.
  { destruct (files_of_main args environ now fs) as [Hf|[updated Hf]];
      fold r fs1 in Hf; rewrite Hf; [done|].
    unfold write_text. by rewrite lookup_insert_ne. }
  unfold fs1, ensure_base_appcast.
  destruct (path_exists fs (appcast_path_of args)) eqn:Hex; [by left|].
  unfold write_text. rewrite lookup_insert_ne by done. unfold mkdir_parents.
  destruct (mkdirs_lookup dirs fs q) as [Hl|(Hn & Hin & Hl)]; [by left|by right].
Qed.


End MoreRuns.

(** X9 on the packaged release of a successful run. *)
Lemma main_touches_only_the_feed_witness :
  let fs := release_files feed1 in
  let r := main sample_args ∅ sample_now fs in
  let q := zip_path_of sample_args in
  let dirs := parent (appcast_path_of sample_args)
              :: parents (parent (appcast_path_of sample_args)) in
  files r !! q = fs !! q \/
  (fs !! q = None /\ path_exists fs (appcast_path_of sample_args) = false /\
   q ∈ dirs /\ files r !! q = Some (Directory new_dir_size)).
Proof.
  intros fs r q dirs.
  apply (main_touches_only_the_feed sample_args ∅ sample_now fs q).
  vm_compute. discriminate.
Defined.

(** ** The publication date *)

Lemma N_of_decimal_digits acc (s : str) n c :
  N_of_decimal acc s = Some n -> (c <? 48) || (57 <? c) = true -> lacks c s = true.
Proof.
  intros Hs Hc. revert acc Hs; induction s as [|d s IH]; intros acc Hs; [done|].
  cbn [N_of_decimal] in Hs. unfold digit_of in Hs.
  destruct ((48 <=? d) && (d <=? 57)) eqn:Hd; [|done].
  rewrite lacks_cons, (IH _ Hs), andb_true_r.
  apply negb_true_iff, N.eqb_neq. intros ->.
  apply andb_true_iff in Hd as [?%N.leb_le ?%N.leb_le].
  apply orb_true_iff in Hc as [?%N.ltb_lt | ?%N.ltb_lt]; lia.
Qed.

Lemma lacks_str_of_N c n : (c <? 48) || (57 <? c) = true -> lacks c (str_of_N n) = true.
Proof.
  intros Hc. pose proof (N_of_str_of_N n) as Hn. unfold N_of_str in Hn.
  destruct (str_of_N n) as [|d s] eqn:E; [done|]. by eapply N_of_decimal_digits.
Qed.

Lemma below_forall (P : N -> bool) (k : N) :
  forallb P (below k) = true -> forall n, n < k -> P n = true.
Proof.
  intros Hall n Hn. rewrite forallb_forall in Hall. apply Hall.
  unfold below. apply in_map_iff. exists (N.to_nat n). split; [lia|].
  apply in_seq. lia.
Qed.

Lemma below_forall2 (P : N -> N -> bool) (k : N) :
  forallb (fun n => forallb (P n) (below k)) (below k) = true ->
  forall n m, n < k -> m < k -> P n m = true.
Proof.
  intros Hall n m Hn Hm.
  apply (below_forall (P n) k); [|done].
  by apply (below_forall (fun n => forallb (P n) (below k)) k).
Qed.

Lemma rfc822_now_fields (t : struct_time) :
  rfc822_now t =
  day_abbr (tm_wday t) ++ lit ", " ++ pad2 (tm_mday t) ++ lit " "
  ++ month_abbr (tm_mon t) ++ lit " " ++ str_of_N (tm_year t) ++ lit " "
  ++ pad2 (tm_hour t) ++ lit ":" ++ pad2 (tm_min t) ++ lit ":" ++ pad2 (tm_sec t)
  ++ lit " +0000".
Proof. reflexivity. Qed.

Lemma day_abbr_shape n :
  n <= 6 -> length (day_abbr n) = 3%nat /\ lacks 60 (day_abbr n) = true.
Proof.
  intros Hn.
  assert (forallb (fun n => (length (day_abbr n) =? 3)%nat && lacks 60 (day_abbr n))
            (below 7) = true) as Hall by (vm_compute; reflexivity).
  pose proof (below_forall _ _ Hall n ltac:(lia)) as Hb. cbv beta in Hb.
  by apply andb_true_iff in Hb as [?%Nat.eqb_eq ?].
Qed.

Lemma month_abbr_shape n :
  1 <= n <= 12 -> length (month_abbr n) = 3%nat /\ lacks 60 (month_abbr n) = true.
Proof.
  intros Hn.
  assert (forallb (fun n => (n =? 0) || (length (month_abbr n) =? 3)%nat
                                        && lacks 60 (month_abbr n))
            (below 13) = true) as Hall by (vm_compute; reflexivity).
  pose proof (below_forall _ _ Hall n ltac:(lia)) as Hb. cbv beta in Hb.
  apply orb_true_iff in Hb as [?%N.eqb_eq | [?%Nat.eqb_eq ?]%andb_true_iff]; [lia|done].
Qed.

Lemma pad2_shape n :
  n < 100 -> length (pad2 n) = 2%nat /\ lacks 60 (pad2 n) = true /\ N_of_str (pad2 n) = Some n.
Proof.
  intros Hn.
  assert (forallb (fun n => (length (pad2 n) =? 2)%nat && lacks 60 (pad2 n)
                            && bool_decide (N_of_str (pad2 n) = Some n))
            (below 100) = true) as Hall by (vm_compute; reflexivity).
  pose proof (below_forall _ _ Hall n Hn) as Hb. cbv beta in Hb.
  apply andb_true_iff in Hb as [[?%Nat.eqb_eq ?]%andb_true_iff ?%bool_decide_eq_true].
  done.
Qed.

Lemma year_shape n : 1000 <= n <= 9999 -> length (str_of_N n) = 4%nat.
Proof.
  intros Hn.
  assert (forallb (fun n => (n <? 1000) || (length (str_of_N n) =? 4)%nat)
            (below 10000) = true) as Hall by (vm_compute; reflexivity).
  pose proof (below_forall _ _ Hall n ltac:(lia)) as Hb. cbv beta in Hb.
  apply orb_true_iff in Hb as [?%N.ltb_lt | ?%Nat.eqb_eq]; [lia|done].
Qed.

Lemma day_abbr_inj n m : n <= 6 -> m <= 6 -> day_abbr n = day_abbr m -> n = m.
Proof.
  intros Hn Hm E.
  assert (forallb (fun n => forallb
            (fun m => implb (bool_decide (day_abbr n = day_abbr m)) (n =? m))
            (below 7)) (below 7) = true) as Hall by (vm_compute; reflexivity).
  pose proof (below_forall2 _ _ Hall n m ltac:(lia) ltac:(lia)) as Hb. cbv beta in Hb.
  rewrite (bool_decide_eq_true_2 _ E) in Hb. by apply N.eqb_eq.
Qed.

Lemma month_abbr_inj n m :
  1 <= n <= 12 -> 1 <= m <= 12 -> month_abbr n = month_abbr m -> n = m.
Proof.
  intros Hn Hm E.
  assert (forallb (fun n => forallb
            (fun m => (n =? 0) || (m =? 0)
                      || implb (bool_decide (month_abbr n = month_abbr m)) (n =? m))
            (below 13)) (below 13) = true) as Hall by (vm_compute; reflexivity).
  pose proof (below_forall2 _ _ Hall n m ltac:(lia) ltac:(lia)) as Hb. cbv beta in Hb.
  rewrite (bool_decide_eq_true_2 _ E) in Hb.
  apply orb_true_iff in Hb as [[?%N.eqb_eq | ?%N.eqb_eq]%orb_true_iff | ?%N.eqb_eq];
    lia || done.
Qed.

Lemma valid_time_ranges t :
  valid_time t = true ->
  1000 <= tm_year t <= 9999 /\ 1 <= tm_mon t <= 12 /\ 1 <= tm_mday t <= 31 /\
  tm_hour t <= 23 /\ tm_min t <= 59 /\ tm_sec t <= 59 /\ tm_wday t <= 6.
Proof.
  unfold valid_time. rewrite !andb_true_iff, !N.leb_le. tauto.
Qed.

(** X11.  The publication date of a valid clock reading has 31
    characters and no [<], and it determines the reading: two valid
    readings with the same publication date are equal. *)
Theorem publication_date_format (t : struct_time) :
  valid_time t = true ->
  length (rfc822_now t) = 31%nat /\
  lacks 60 (rfc822_now t) = true /\
  (forall t', valid_time t' = true -> rfc822_now t' = rfc822_now t -> t' = t).
Proof.
  intros (Hy & Hmo & Hd & Hh & Hmi & Hs & Hw)%valid_time_ranges.
  destruct (day_abbr_shape _ Hw) as [Lw Pw].
  destruct (month_abbr_shape _ Hmo) as [Lmo Pmo].
  destruct (pad2_shape (tm_mday t) ltac:(lia)) as (Ld & Pd & Rd).
  destruct (pad2_shape (tm_hour t) ltac:(lia)) as (Lh & Ph & Rh).
  destruct (pad2_shape (tm_min t) ltac:(lia)) as (Lmi & Pmi & Rmi).
  destruct (pad2_shape (tm_sec t) ltac:(lia)) as (Ls & Ps & Rs).
  pose proof (year_shape _ Hy) as Ly.
  pose proof (lacks_str_of_N 60 (tm_year t) eq_refl) as Py.
  split; [|split].
  - rewrite rfc822_now_fields, !length_app, Lw, Lmo, Ld, Lh, Lmi, Ls, Ly. reflexivity.
  - rewrite rfc822_now_fields, !lacks_app, Pw, Pmo, Pd, Ph, Pmi, Ps, Py. reflexivity.
  - intros t' (Hy' & Hmo' & Hd' & Hh' & Hmi' & Hs' & Hw')%valid_time_ranges.
    destruct (day_abbr_shape _ Hw') as [Lw' _].
    destruct (month_abbr_shape _ Hmo') as [Lmo' _].
    destruct (pad2_shape (tm_mday t') ltac:(lia)) as (Ld' & _ & Rd').
    destruct (pad2_shape (tm_hour t') ltac:(lia)) as (Lh' & _ & Rh').
    destruct (pad2_shape (tm_min t') ltac:(lia)) as (Lmi' & _ & Rmi').
    destruct (pad2_shape (tm_sec t') ltac:(lia)) as (Ls' & _ & Rs').
    pose proof (year_shape _ Hy') as Ly'.
    rewrite !rfc822_now_fields. intros E.
    apply app_inj_1 in E as [Ew E]; [|congruence].
    apply (app_inv_head (lit ", ")) in E.
    apply app_inj_1 in E as [Ed E]; [|congruence].
    apply (app_inv_head (lit " ")) in E.
    apply app_inj_1 in E as [Emo E]; [|congruence].
    apply (app_inv_head (lit " ")) in E.
    apply app_inj_1 in E as [Ey E]; [|congruence].
    apply (app_inv_head (lit " ")) in E.
    apply app_inj_1 in E as [Eh E]; [|congruence].
    apply (app_inv_head (lit ":")) in E.
    apply app_inj_1 in E as [Emi E]; [|congruence].
    apply (app_inv_head (lit ":")) in E.
    apply app_inj_1 in E as [Es _]; [|congruence].
    apply day_abbr_inj in Ew; [|done..].
    apply month_abbr_inj in Emo; [|done..].
    assert (tm_year t' = tm_year t) as Ey'.
    { apply (f_equal N_of_str) in Ey. rewrite !N_of_str_of_N in Ey. congruence. }
    assert (tm_mday t' = tm_mday t) by congruence.
    assert (tm_hour t' = tm_hour t) by congruence.
    assert (tm_min t' = tm_min t) by congruence.
    assert (tm_sec t' = tm_sec t) by congruence.
    destruct t, t'. simpl in *. congruence.
Qed.

(** X11 on the second of November 2026, ten o'clock. *)
Lemma publication_date_format_witness :
  length (rfc822_now sample_time) = 31%nat /\
  lacks 60 (rfc822_now sample_time) = true /\
  (forall t', valid_time t' = true -> rfc822_now t' = rfc822_now sample_time ->
              t' = sample_time).
Proof. apply publication_date_format. reflexivity. Defined.

Example clock_reading_of_the_sample : rfc822_now sample_time = sample_now.
Proof. by vm_compute. Qed.

(** ** The first release *)






Section FirstRelease.
Context {Path : Type} `{Pathlib Path}.
Implicit Types (fs : gmap Path node) (args : Args) (environ : gmap string str).


End FirstRelease.


(** ** Feeds the script has produced *)

Lemma opens_app (a b : str) : opens a = true -> opens (a ++ b) = true.
Proof.
  destruct a as [|d [|e a]]; simpl; try done.
  by destruct (d =? 47).
Qed.

Lemma tame_app (a b : str) : tame a = true -> tame b = true -> tame (a ++ b) = true.
Proof.
  intros Ha Hb. induction a as [|c a IH]; [done|].
  simpl in *. apply andb_true_iff in Ha as [Hc Ha].
  rewrite (IH Ha), andb_true_r.
  destruct (c =? 60); [|done]. simpl in *. by apply opens_app.
Qed.

Lemma tame_suffix (a b : str) : tame (a ++ b) = true -> tame b = true.
Proof.
  induction a as [|c a IH]; [done|]. simpl. intros [_ H]%andb_true_iff. by apply IH.
Qed.

Lemma opens_prefix (a : str) x (r : str) :
  isspace x || (x =? 60) = true -> opens (a ++ x :: r) = true -> opens a = true.
Proof.
  intros Hx. destruct a as [|d [|e a]]; simpl.
  - destruct (x =? 47) eqn:E47.
    + apply N.eqb_eq in E47 as ->. by vm_compute in Hx.
    + intros [H1 H2]%andb_true_iff. apply negb_true_iff in H1, H2.
      by rewrite H1, H2 in Hx.
  - destruct (d =? 47); [|done].
    intros [[H1 H2]%andb_true_iff _]%andb_true_iff. apply negb_true_iff in H1, H2.
    by rewrite H1, H2 in Hx.
  - done.
Qed.

Lemma tame_prefix (a : str) x (r : str) :
  isspace x || (x =? 60) = true -> tame (a ++ x :: r) = true -> tame a = true.
Proof.
  intros Hx. induction a as [|c a IH]; [done|].
  simpl. intros [Hc Ha]%andb_true_iff. rewrite (IH Ha), andb_true_r.
  destruct (c =? 60); [|done]. simpl in *. by eapply opens_prefix.
Qed.

Lemma lacks_tame (s : str) : lacks 60 s = true -> tame s = true.
Proof.
  induction s as [|c s IH]; [done|]. rewrite lacks_cons. simpl.
  intros [Hc Hs]%andb_true_iff. by rewrite Hc, IH.
Qed.

Lemma tame_not_marker (h r : str) c :
  tame (c :: h) = true -> starts_with marker (c :: h ++ r) = false.
Proof.
  cbn [tame]. intros [Hc _]%andb_true_iff.
  change marker with (60 :: 47 :: 99 :: lit "hannel>").
  cbn [starts_with]. rewrite (N.eqb_sym 60 c).
  destruct (c =? 60); [|done]. cbn [negb orb] in Hc.
  destruct h as [|d h]; [done|]. cbn [opens] in Hc. cbn [app starts_with].
  rewrite (N.eqb_sym 47 d). destruct (d =? 47); [|done].
  destruct h as [|e h]; [done|]. cbn [app starts_with].
  apply andb_true_iff in Hc as [_ Hc]. apply negb_true_iff in Hc.
  by rewrite (N.eqb_sym 99 e), Hc.
Qed.

Lemma tame_marker_first (h t : str) :
  tame h = true -> partition marker (h ++ marker ++ t) = Some (h, t).
Proof.
  intros Hh. induction h as [|c h IH]; [exact (partition_here marker t)|].
  change ((c :: h) ++ marker ++ t) with (c :: (h ++ marker ++ t)).
  apply partition_miss; [by apply tame_not_marker|].
  apply IH. by apply (tame_suffix [c]).
Qed.

Lemma tame_one_marker (h : str) :
  tame h = true -> occurrences marker (h ++ marker ++ feed_tail) = 1%nat.
Proof.
  intros Hh. induction h as [|c h IH]; [by vm_compute|].
  change ((c :: h) ++ marker ++ feed_tail) with (c :: (h ++ marker ++ feed_tail)).
  apply occurrences_miss; [by apply tame_not_marker|].
  apply IH. by apply (tame_suffix [c]).
Qed.

(** An occurrence of [p] in [x ++ rest] ends inside [x] when [p] is clear
    of [rest]. *)

Lemma ends_inside (p x rest pre post : str) :
  clear_of p rest = true ->
  pre ++ p ++ post = x ++ rest ->
  exists l, x = pre ++ p ++ l /\ post = l ++ rest.
Proof.
  intros Hclear Heq. rewrite app_assoc in Heq.
  apply app_eq_app in Heq as [l [[Hx Hr]|[Hx Hr]]].
  - destruct l as [|c l].
    + exists []. rewrite app_nil_r in Hx. simpl in Hr. subst.
      by rewrite app_nil_r.
    + exfalso. unfold clear_of in Hclear. rewrite forallb_forall in Hclear.
      specialize (Hclear (length (c :: l))).
      assert (take (length (c :: l)) rest = c :: l) as Ht
        by (rewrite Hr; apply take_app_length).
      rewrite Ht in Hclear.
      assert (In (length (c :: l)) (seq 1 (length rest))) as Hin.
      { apply in_seq. rewrite Hr, length_app. simpl. lia. }
      apply Hclear, andb_true_iff in Hin as [H1 H2].
      apply negb_true_iff, bool_decide_eq_false in H1, H2.
      destruct (suffix_weak_total (c :: l) p (pre ++ p)) as [?|?]; try done.
      * rewrite Hx. by apply suffix_app_r.
      * by apply suffix_app_r.
  - exists l. by rewrite Hx, <- app_assoc.
Qed.

Lemma entry_end_sound V (b post : str) :
  entry_end V b = Some post -> exists pre, b = pre ++ item_close ++ post.
Proof.
  unfold entry_end. intros Hend.
  destruct (strip_prefix title_open (lstrip b)) as [r2|] eqn:Hb; [|done].
  destruct (partition (version_tag V) r2) as [[x r3]|] eqn:Hx; [|done].
  destruct (partition item_close r3) as [[y post']|] eqn:Hy; [|done].
  injection Hend as ->. apply strip_prefix_Some in Hb.
  apply partition_Some in Hx, Hy.
  destruct (lstrip_by_split isspace b) as (w & Hw & _). fold (lstrip b) in Hw.
  exists (w ++ title_open ++ x ++ version_tag V ++ y).
  rewrite Hw, Hb, Hx, Hy. by rewrite <- !app_assoc.
Qed.

Lemma removal_settled V (n : nat) (h : str) :
  (length h <= n)%nat -> tame h = true ->
  exists h', remove_existing_item (h ++ marker ++ feed_tail) V = h' ++ marker ++ feed_tail
             /\ tame h' = true.
Proof.
  revert h. induction n as [|n IH]; intros h Hlen Hh.
  { destruct h; [|simpl in Hlen; lia]. exists []. split; [by vm_compute|done]. }
  rewrite remove_existing_item_unfold.
  destruct (partition item_open (h ++ marker ++ feed_tail)) as [[a b]|] eqn:Hp;
    [|by exists h].
  apply partition_Some in Hp. symmetry in Hp.
  apply (ends_inside item_open h (marker ++ feed_tail) a b) in Hp as (l & Hh' & ->);
    [|by vm_compute].
  assert (tame l = true) as Hl.
  { rewrite Hh', app_assoc in Hh. by apply tame_suffix in Hh. }
  assert (length l < length h)%nat as Hll.
  { rewrite Hh', !length_app. simpl. lia. }
  destruct (entry_end V (l ++ marker ++ feed_tail)) as [post|] eqn:Hend.
  - apply entry_end_sound in Hend as (pre & Hpre).
    symmetry in Hpre.
    apply (ends_inside item_close l (marker ++ feed_tail) pre post) in Hpre
      as (l2 & Hl2 & ->); [|by vm_compute].
    assert (tame l2 = true) as Htl2.
    { rewrite Hl2, app_assoc in Hl. by apply tame_suffix in Hl. }
    destruct (IH l2) as (h2 & -> & Hh2); [|done|].
    { rewrite Hl2, !length_app in Hll. simpl in Hll. lia. }
    exists (rstrip a ++ h2). split; [by rewrite <- app_assoc|].
    apply tame_app; [|done].
    destruct (rstrip_by_split isspace a) as (w & Hw & Hws). fold (rstrip a) in Hw.
    rewrite Hh', Hw, <- app_assoc in Hh.
    destruct w as [|c w].
    + apply (tame_prefix _ 60 (lit "item>" ++ l)) in Hh; done.
    + apply (tame_prefix _ c (w ++ item_open ++ l)) in Hh; [done|].
      simpl in Hws. apply andb_true_iff in Hws as [-> _]. done.
  - destruct (IH l) as (h2 & -> & Hh2); [lia|done|].
    exists (a ++ item_open ++ h2). split; [by rewrite <- !app_assoc|].
    apply tame_app; [|apply tame_app; [by vm_compute|done]].
    rewrite Hh' in Hh. by apply (tame_prefix _ 60 (lit "item>" ++ l)) in Hh.
Qed.

Lemma tame_load_notes {Path : Type} `{Pathlib Path}
    (fs : gmap Path node) (notes_path : option Path) :
  tame (load_notes fs notes_path) = true.
Proof.
  destruct (load_notes_cases fs notes_path) as [->|[raw ->]]; [by vm_compute|].
  pose proof (lacks_html_escape 60 raw ltac:(auto)) as H60.
  repeat apply tame_app; try (by vm_compute). by apply lacks_tame.
Qed.

Lemma tame_build_item (V sv url size notes minsys date : str) (sigs : gmap string str) :
  lacks 60 V = true -> lacks 60 sv = true -> lacks 60 url = true ->
  lacks 60 size = true -> lacks 60 minsys = true -> lacks 60 date = true ->
  (forall k v, sigs !! k = Some v -> lacks 60 v = true) ->
  tame notes = true ->
  tame (build_item V sv url size notes minsys sigs date) = true.
Proof.
  intros HV Hsv Hurl Hsize Hmin Hdate Hsigs Hnotes.
  pose proof (lt_free_enclosure url size sigs Hurl Hsize Hsigs) as Hencl.
  unfold build_item.
  repeat apply tame_app; try (by vm_compute); try (by apply lacks_tame); done.
Qed.

Lemma skeleton_settled (link : str) :
  lacks 60 link = true -> settled (base_template link).
Proof.
  intros Hlink. exists (skeleton_head link). split.
  - unfold base_template, skeleton_head, feed_tail. expose_text.
    rewrite <- app_assoc. reflexivity.
  - unfold skeleton_head.
    repeat apply tame_app; try (by vm_compute). by apply lacks_tame.
Qed.

Lemma update_settled (doc V item updated : str) :
  settled doc -> tame item = true ->
  append_item (remove_existing_item doc V) item = Ok updated ->
  settled updated.
Proof.
  intros (h & -> & Hh) Hitem Happ.
  destruct (removal_settled V (length h) h) as (h' & Hrem & Hh'); [done..|].
  rewrite Hrem in Happ.
  rewrite (append_item_once _ item h' feed_tail) in Happ;
    [|by apply tame_marker_first|by vm_compute].
  injection Happ as <-.
  exists (h' ++ item ++ nl ++ lit "  "). split; [by rewrite <- !app_assoc|].
  repeat apply tame_app; try done; by vm_compute.
Qed.

Lemma settled_appendable (doc V item : str) :
  settled doc ->
  occurrences marker doc = 1%nat /\
  exists updated, append_item (remove_existing_item doc V) item = Ok updated.
Proof.
  intros (h & -> & Hh). split; [by apply tame_one_marker|].
  destruct (removal_settled V (length h) h) as (h' & -> & Hh'); [done..|].
  eexists. apply append_item_once; [by apply tame_marker_first|by vm_compute].
Qed.

Section ProducedFeeds.
Context {Path : Type} `{Pathlib Path}.
Implicit Types (fs : gmap Path node) (args : Args) (environ : gmap string str).

Lemma produced_settled (doc : str) : produced Path doc -> settled doc.
Proof.
  induction 1 as [link Hlink|doc V sv url size minsys date sigs fs np updated _ IH Hplain Happ].
  - by apply skeleton_settled.
  - destruct Hplain as (HV & _ & Hsv & Hurl & Hsize & Hmin & Hdate & Hsigs & _).
    eapply update_settled; [exact IH| |exact Happ].
    apply tame_build_item; try done. apply tame_load_notes.
Qed.

(** X13.  A feed produced by the script, by any number of updates from
    the bootstrap skeleton, holds exactly one closing channel tag, and
    the next update of it cannot fail: for every version and every item,
    [append_item] returns on what [remove_existing_item] leaves. *)
Theorem produced_feeds_stay_appendable (doc : str) :
  produced Path doc ->
  occurrences marker doc = 1%nat /\
  forall V item, exists updated,
    append_item (remove_existing_item doc V) item = Ok updated.
Proof.
  intros Hs%produced_settled. split.
  - by apply (settled_appendable doc [] []).
  - intros V item. by apply settled_appendable.
Qed.



End ProducedFeeds.

Lemma feed1_produced : produced (list str) feed1.
Proof.
  apply (produced_update feed0 (lit "1.0") (lit "1.0")
           (lit "https://example.com/AppDetective-" ++ lit "1.0" ++ lit ".zip")
           (lit "5242880") (lit "13.0") sample_now ∅ ∅ None).
  - apply produced_bootstrap. by vm_compute.
  - apply sample_fields_plain; by vm_compute.
  - by vm_compute.
Defined.

Lemma feed2_produced : produced (list str) feed2.
Proof.
  apply (produced_update feed1 (lit "1.1") (lit "1.1")
           (lit "https://example.com/AppDetective-" ++ lit "1.1" ++ lit ".zip")
           (lit "5242880") (lit "13.0") sample_now ∅ ∅ None).
  - exact feed1_produced.
  - apply sample_fields_plain; by vm_compute.
  - by vm_compute.
Defined.

(** X13 on the feed after the releases of 1.0 and 1.1. *)
Lemma produced_feeds_stay_appendable_witness :
  occurrences marker feed2 = 1%nat /\
  forall V item, exists updated,
    append_item (remove_existing_item feed2 V) item = Ok updated.
Proof.
  apply (produced_feeds_stay_appendable (Path := list str)). exact feed2_produced.
Defined.


(** ** Feeds as lists of entries *)

Lemma compose_lead (e : entry) : exists T, compose e = item_lead ++ T.
Proof. eexists. unfold compose, build_item, item_lead. expose_text. reflexivity. Qed.

Lemma version_tag_mismatch (V V' r : str) :
  lacks 60 V = true -> lacks 60 V' = true -> V' <> V ->
  starts_with (version_tag V)
    (lit "<sparkle:version>" ++ V' ++ lit "</sparkle:version>" ++ r) = false.
Proof.
  intros HV HV' Hne. unfold version_tag. rewrite starts_with_same_prefix.
  revert V' HV' Hne. induction V as [|c V IH]; intros [|c' V'] HV' Hne; try done.
  - rewrite lacks_cons in HV'. apply andb_true_iff in HV' as [Hc _].
    change (starts_with (60 :: lit "/sparkle:version>")
              (c' :: V' ++ lit "</sparkle:version>" ++ r) = false).
    cbn [starts_with]. rewrite N.eqb_sym. apply negb_true_iff in Hc. by rewrite Hc.
  - rewrite lacks_cons in HV. apply andb_true_iff in HV as [Hc _].
    change (starts_with (c :: V ++ lit "</sparkle:version>")
              (60 :: lit "/sparkle:version>" ++ r) = false).
    cbn [starts_with]. apply negb_true_iff in Hc. by rewrite Hc.
  - rewrite lacks_cons in HV, HV'.
    apply andb_true_iff in HV as [_ HV]. apply andb_true_iff in HV' as [_ HV'].
    change (starts_with (c :: (V ++ lit "</sparkle:version>"))
              (c' :: (V' ++ lit "</sparkle:version>" ++ r)) = false).
    cbn [starts_with]. destruct (N.eqb_spec c c') as [->|]; [|done].
    apply IH; [done..|]. congruence.
Qed.

Lemma entry_other (V : str) (e : entry) :
  lacks 60 V = true -> no_space V = true ->
  plain_entry V e -> e_version e <> V ->
  occurrences (version_tag V) (compose e) = 0%nat.
Proof.
  intros HV HVs (He & Hsv & Hurl & Hsize & Hmin & Hdate & Hsigs & Hnotes & _) Hne.
  pose proof (lt_free_enclosure _ _ _ Hurl Hsize Hsigs) as Hencl.
  pose proof (no_space_lacks 10 V eq_refl HVs) as HVnl.
  pose proof (fun r => version_tag_mismatch V (e_version e) r HV He Hne) as Hmis.
  unfold compose, build_item.
  generalize dependent (join (nl ++ lit "        ")
                          (enclosure_attrs (e_url e) (e_size e) (e_sigs e))).
  intros encl Hencl. revert Hnotes Hmis.
  expose_text. intros Hnotes Hmis.
  occ_scan.
  apply occurrences_boundary; [solve_lacks|done|].
  occ_scan.
  apply occurrences_miss; [apply Hmis|].
  occ_scan. reflexivity.
Qed.

Lemma entry_same (V : str) (e : entry) (S : str) :
  lacks 60 V = true -> no_space V = true ->
  plain_entry V e -> e_version e = V ->
  exists T, compose e = item_lead ++ T /\
  exists x r3 y,
    partition (version_tag V) (T ++ S) = Some (x, r3) /\
    partition item_close r3 = Some (y, nl ++ S).
Proof.
  intros HV HVs (_ & Hsv & Hurl & Hsize & Hmin & Hdate & Hsigs & Hnotes & Hclose) <-.
  pose proof (lt_free_enclosure _ _ _ Hurl Hsize Hsigs) as Hencl.
  pose proof (no_space_lacks 10 _ eq_refl HVs) as HVnl.
  unfold compose, build_item, item_lead.
  generalize dependent (join (nl ++ lit "        ")
                          (enclosure_attrs (e_url e) (e_size e) (e_sigs e))).
  intros encl Hencl.
  eexists. split; [expose_text; reflexivity|].
  eexists _, _, _. split.
  - revert Hnotes. expose_text. intros Hnotes.
    repeat first [rewrite <- app_assoc | progress cbn [app]].
    part_scan.
    eapply partition_boundary; [solve_lacks|exact Hnotes|].
    part_scan. apply partition_hit. exact (strip_tag_here (e_version e) _).
  - expose_text. part_scan. apply partition_hit. reflexivity.
Qed.

Lemma partition_after_lead (V Y x r : str) :
  partition (version_tag V) Y = Some (x, r) ->
  partition (version_tag V) (item_lead ++ Y) = Some (item_lead ++ x, r).
Proof.
  intros HY. unfold item_lead. revert HY. expose_text. intros HY.
  part_scan. exact HY.
Qed.

Lemma partition_after_gap (V Y x r : str) :
  partition (version_tag V) Y = Some (x, r) ->
  partition (version_tag V) (nl ++ lit "  " ++ Y) = Some (nl ++ lit "  " ++ x, r).
Proof.
  intros HY. revert HY. expose_text. intros HY. part_scan. exact HY.
Qed.

Lemma partition_after_text (V A Y x r : str) :
  no_space V = true ->
  occurrences (version_tag V) A = 0%nat ->
  partition (version_tag V) Y = Some (x, r) ->
  partition (version_tag V) (A ++ nl ++ lit "  " ++ Y)
  = Some (A ++ nl ++ lit "  " ++ x, r).
Proof.
  intros HVs HA HY. apply (partition_after_gap V) in HY.
  pose proof (no_space_lacks 10 _ eq_refl HVs) as HVnl.
  revert HA HY. expose_text. intros HA HY.
  eapply partition_boundary; [solve_lacks|exact HA|exact HY].
Qed.

Lemma entries_cons (e : entry) (es : list entry) :
  entries (e :: es) = compose e ++ nl ++ lit "  " ++ entries es.
Proof. unfold entries. cbn [map concat]. by rewrite <- !app_assoc. Qed.

Lemma entries_app (es1 es2 : list entry) :
  entries (es1 ++ es2) = entries es1 ++ entries es2.
Proof. unfold entries. by rewrite map_app, concat_app. Qed.

Lemma find_version (V : str) (before : list entry) (e : entry) (S : str) :
  lacks 60 V = true -> no_space V = true ->
  Forall (plain_entry V) before -> Forall (fun e' => e_version e' <> V) before ->
  plain_entry V e -> e_version e = V ->
  exists x r3 y,
    partition (version_tag V) (entries before ++ compose e ++ S) = Some (x, r3) /\
    partition item_close r3 = Some (y, nl ++ S).
Proof.
  intros HV HVs Hplain Hother He Hv.
  induction before as [|e' before IH].
  - destruct (entry_same V e S HV HVs He Hv) as (T & -> & x & r3 & y & Hx & Hy).
    exists (item_lead ++ x), r3, y. split; [|done].
    change (entries [] ++ (item_lead ++ T) ++ S) with ((item_lead ++ T) ++ S).
    rewrite <- app_assoc. by apply partition_after_lead.
  - apply Forall_cons in Hplain as [Hp' Hplain]. apply Forall_cons in Hother as [Ho' Hother].
    destruct (IH Hplain Hother) as (x & r3 & y & Hx & Hy).
    eexists _, r3, y. split; [|done].
    rewrite entries_cons, <- !app_assoc.
    apply partition_after_text; [done|by apply entry_other|exact Hx].
Qed.

Lemma remove_led_entry (pre R V x r3 y post : str) :
  contains item_open pre = false ->
  partition (version_tag V) R = Some (x, r3) ->
  partition item_close r3 = Some (y, post) ->
  remove_existing_item (pre ++ item_lead ++ R) V
  = rstrip pre ++ remove_existing_item post V.
Proof.
  intros Hpre%contains_false_occurrences Hx Hy.
  rewrite (remove_first_entry (pre ++ item_lead ++ R) V
             (pre ++ lit "    ") (nl ++ lit "      " ++ title_open ++ R) R x r3 y post);
    [|..|done|done].
  - unfold rstrip. by rewrite rstrip_by_app_all by reflexivity.
  - unfold item_lead. revert Hpre. expose_text. intros Hpre.
    eapply partition_boundary; [reflexivity|exact Hpre|].
    part_scan. apply partition_hit. reflexivity.
  - reflexivity.
Qed.

Lemma first_match (pre rest V : str) (before : list entry) (e : entry)
    (later : list entry) :
  lacks 60 V = true -> no_space V = true ->
  contains item_open pre = false ->
  Forall (plain_entry V) before -> Forall (fun e' => e_version e' <> V) before ->
  plain_entry V e -> e_version e = V ->
  remove_existing_item (pre ++ entries (before ++ e :: later) ++ rest) V
  = rstrip pre
    ++ remove_existing_item (nl ++ nl ++ lit "  " ++ entries later ++ rest) V.
Proof.
  intros HV HVs Hpre Hplain Hother He Hv.
  rewrite entries_app, entries_cons, <- !app_assoc.
  set (S := nl ++ lit "  " ++ entries later ++ rest).
  destruct before as [|e1 before].
  - destruct (entry_same V e S HV HVs He Hv) as (T & -> & x & r3 & y & Hx & Hy).
    change (entries [] ++ (item_lead ++ T) ++ S) with ((item_lead ++ T) ++ S).
    rewrite <- app_assoc. by apply (remove_led_entry pre (T ++ S) V x r3 y).
  - apply Forall_cons in Hplain as [Hp1 Hplain].
    apply Forall_cons in Hother as [Ho1 Hother].
    destruct (find_version V before e S HV HVs Hplain Hother He Hv)
      as (x & r3 & y & Hx & Hy).
    pose proof (entry_other V e1 HV HVs Hp1 Ho1) as Hocc.
    destruct (compose_lead e1) as [T1 HT1].
    rewrite entries_cons, HT1, <- !app_assoc. rewrite HT1 in Hocc.
    apply occurrences_app_0 in Hocc as [_ Hocc].
    eapply (remove_led_entry pre _ V _ r3 y); [done| |exact Hy].
    apply partition_after_text; [done|exact Hocc|exact Hx].
Qed.

Lemma entries_other (V : str) (es : list entry) (rest : str) :
  lacks 60 V = true -> no_space V = true ->
  Forall (plain_entry V) es -> Forall (fun e => e_version e <> V) es ->
  occurrences (version_tag V) (entries es ++ rest) = occurrences (version_tag V) rest.
Proof.
  intros HV HVs Hplain Hother.
  pose proof (no_space_lacks 10 _ eq_refl HVs) as HVnl.
  induction es as [|e es IH]; [done|].
  apply Forall_cons in Hplain as [Hp Hplain]. apply Forall_cons in Hother as [Ho Hother].
  rewrite entries_cons, <- !app_assoc, <- (IH Hplain Hother).
  pose proof (entry_other V e HV HVs Hp Ho) as Hocc.
  revert Hocc. generalize (entries es ++ rest), (compose e). intros Y A.
  expose_text. intros Hocc.
  apply occurrences_boundary; [solve_lacks|exact Hocc|].
  occ_scan. reflexivity.
Qed.

Lemma entry_end_needs_tag (V b post : str) :
  entry_end V b = Some post -> contains (version_tag V) b = true.
Proof.
  unfold entry_end. intros Hend.
  destruct (strip_prefix title_open (lstrip b)) as [r2|] eqn:Hb; [|done].
  destruct (partition (version_tag V) r2) as [[x r3]|] eqn:Hx; [|done].
  apply strip_prefix_Some in Hb.
  destruct (lstrip_by_split isspace b) as (w & Hw & _). fold (lstrip b) in Hw.
  rewrite Hw, Hb. apply contains_app_r, contains_app_r.
  rewrite contains_partition. by rewrite Hx.
Qed.

Lemma remove_no_entry_after (pre X V : str) :
  contains item_open pre = false ->
  contains (version_tag V) X = false ->
  remove_existing_item (pre ++ X) V = pre ++ X.
Proof.
  intros Hpre HX. rewrite remove_existing_item_unfold.
  destruct (partition item_open (pre ++ X)) as [[a b]|] eqn:Hp; [|done].
  apply partition_Some in Hp.
  assert (exists l, X = l ++ b) as [l Hl].
  { symmetry in Hp. rewrite app_assoc in Hp.
    apply app_eq_app in Hp as [l [[Ha HXl]|[Ha Hb]]]; [by exists l|].
    rewrite (contains_within item_open a l pre) in Hpre; [done|].
    by rewrite Ha, <- app_assoc. }
  assert (contains (version_tag V) b = false) as Hb.
  { rewrite Hl in HX. by apply contains_suffix in HX. }
  destruct (entry_end V b) as [post|] eqn:Hend.
  - apply entry_end_needs_tag in Hend. congruence.
  - by rewrite (remove_without_entry b V Hb), Hp.
Qed.

Lemma after_last_none (V : str) (es : list entry) :
  Forall (fun e => e_version e <> V) es -> after_last V es = None.
Proof.
  induction 1 as [|e es He _ IH]; [done|]. simpl. rewrite IH.
  by rewrite bool_decide_eq_false_2.
Qed.

Lemma after_last_first (V : str) (before : list entry) (e : entry) (later : list entry) :
  e_version e = V ->
  after_last V (before ++ e :: later) = Some (default later (after_last V later)).
Proof.
  intros He. induction before as [|e' before IH]; simpl.
  - destruct (after_last V later); [done|]. by rewrite bool_decide_eq_true_2.
  - by rewrite IH.
Qed.

Lemma split_first (V : str) (es : list entry) :
  Forall (fun e => e_version e <> V) es \/
  exists before e later,
    es = before ++ e :: later /\
    Forall (fun e' => e_version e' <> V) before /\ e_version e = V.
Proof.
  induction es as [|e es IH]; [by left|].
  destruct (decide (e_version e = V)) as [He|He].
  - right. by exists [], e, es.
  - destruct IH as [IH|(before & e' & later & -> & Hb & He')].
    + left. by constructor.
    + right. exists (e :: before), e', later. repeat split; [|done]. by constructor.
Qed.

Lemma removal_on_entries (pre rest V : str) (es : list entry) :
  lacks 60 V = true -> no_space V = true ->
  contains item_open pre = false ->
  Forall (plain_entry V) es ->
  contains (version_tag V) rest = false ->
  remove_existing_item (pre ++ entries es ++ rest) V =
  match after_last V es with
  | None => pre ++ entries es ++ rest
  | Some later => rstrip pre ++ nl ++ nl ++ lit "  " ++ entries later ++ rest
  end.
Proof.
  intros HV HVs Hpre Hplain Hrest.
  remember (length es) as n eqn:Hn.
  revert es pre Hn Hpre Hplain.
  induction n as [n IH] using lt_wf_ind. intros es pre Hn Hpre Hplain.
  destruct (split_first V es) as [Hother|(before & e & later & -> & Hother & He)].
  - rewrite (after_last_none V es Hother).
    apply remove_no_entry_after; [done|].
    apply occurrences_0_contains. rewrite entries_other by done.
    by apply occurrences_0_contains.
  - rewrite (after_last_first V before e later He).
    apply Forall_app in Hplain as [Hpb Hpl]. apply Forall_cons in Hpl as [Hpe Hpl].
    rewrite (first_match pre rest V before e later) by done.
    change (nl ++ nl ++ lit "  " ++ entries later ++ rest)
      with ((nl ++ nl ++ lit "  ") ++ entries later ++ rest).
    rewrite (IH (length later)) with (es := later); [|..|done|by vm_compute|done].
    + destruct (after_last V later); by rewrite <- ?app_assoc.
    + rewrite Hn, length_app. simpl. lia.
Qed.

(** X15.  The removal on a feed of composed entries.  Let the document be
    a text without [<item>], then entries composed by [build_item] from
    plain fields, each followed by a newline and two spaces, then a text
    without the version field of [V].  When no entry is for [V], the
    removal for [V] returns the document.  Otherwise it deletes the last
    entry for [V] and every entry before it, whatever their versions: what
    is left is the text before the entries without its trailing
    whitespace, two newlines and two spaces, the entries after the last
    entry for [V], and the rest. *)
Theorem removal_drops_earlier_entries (pre rest V : str) (es : list entry) :
  lacks 60 V = true -> no_space V = true ->
  contains item_open pre = false ->
  Forall (plain_entry V) es ->
  contains (version_tag V) rest = false ->
  remove_existing_item (pre ++ entries es ++ rest) V =
  match after_last V es with
  | None => pre ++ entries es ++ rest
  | Some later => rstrip pre ++ nl ++ nl ++ lit "  " ++ entries later ++ rest
  end.
Proof. apply removal_on_entries. Qed.

Lemma after_last_suffix (V : str) (es later : list entry) :
  after_last V es = Some later -> exists l, es = l ++ later.
Proof.
  revert later. induction es as [|e es IH]; intros later; [done|]. simpl.
  destruct (after_last V es) as [l2|].
  - intros [= <-]. destruct (IH l2 eq_refl) as [l ->]. by exists (e :: l).
  - destruct (bool_decide (e_version e = V)); [|done]. intros [= <-]. by exists [e].
Qed.

Lemma skeleton_head_split (link : str) :
  base_template link = skeleton_head link ++ marker ++ feed_tail.
Proof.
  unfold base_template, skeleton_head, feed_tail. expose_text.
  rewrite <- app_assoc. reflexivity.
Qed.

Lemma skeleton_head_no_item (link : str) :
  lacks 60 link = true -> contains item_open (skeleton_head link) = false.
Proof.
  intros Hlink. apply occurrences_0_contains. unfold skeleton_head.
  expose_text. occ_count.
Qed.

Lemma Ok_inj {A : Type} (x y : A) : Ok x = Ok y -> x = y.
Proof. by intros [=]. Qed.

Section ProducedShape.
Context {Path : Type} `{Pathlib Path}.

(** X16.  Every feed produced by the script is a text without [<item>],
    followed by a list of composed entries with plain fields, each with
    its newline and two spaces, followed by the closing channel tag and
    the end of the skeleton. *)
Theorem produced_feeds_are_entry_lists (doc : str) :
  produced Path doc ->
  exists pre es,
    doc = pre ++ entries es ++ marker ++ feed_tail /\
    contains item_open pre = false /\
    forall V, Forall (plain_entry V) es.
Proof.
  intros Hdoc. pose proof Hdoc as Hprod.
  induction Hdoc
    as [link Hlink|doc V sv url size minsys date sigs fs np updated Hdoc IH Hplain Happ].
  - exists (skeleton_head link), []. split; [apply skeleton_head_split|].
    split; [by apply skeleton_head_no_item|]. intros V. constructor.
  - destruct (IH Hdoc) as (pre & es & Hshape & Hpre & Hes).
    pose proof (produced_settled doc Hdoc) as (h & Hh & Htame).
    destruct (removal_settled V (length h) h) as (h' & Hrem & Htame'); [done..|].
    rewrite <- Hh in Hrem.
    destruct Hplain as (HV & HVs & Hsv & Hurl & Hsize & Hmin & Hdate & Hsigs & Hnotes).
    assert (exists pre' es',
              remove_existing_item doc V = pre' ++ entries es' ++ marker ++ feed_tail /\
              contains item_open pre' = false /\
              forall V', Forall (plain_entry V') es') as (pre' & es' & Hrem' & Hpre' & Hes').
    { rewrite Hshape.
      rewrite (removal_on_entries pre (marker ++ feed_tail) V es); [|done..|by vm_compute].
      destruct (after_last V es) as [later|] eqn:Hlast.
      - exists (rstrip pre ++ nl ++ nl ++ lit "  "), later.
        split; [by rewrite <- !app_assoc|]. split.
        + destruct (rstrip_by_split isspace pre) as (w & Hw & _). fold (rstrip pre) in Hw.
          rewrite Hw in Hpre. apply contains_prefix_false in Hpre.
          apply contains_false_occurrences in Hpre. apply occurrences_0_contains.
          revert Hpre. generalize (rstrip pre). intros p Hp. revert Hp.
          expose_text. intros Hp.
          apply occurrences_boundary; [reflexivity|exact Hp|]. occ_count.
        + intros V'. apply after_last_suffix in Hlast as [l ->].
          specialize (Hes V'). by apply Forall_app in Hes as [_ ?].
      - by exists pre, es. }
    rewrite Hrem in Hrem'.
    assert (h' = pre' ++ entries es') as ->.
    { rewrite !app_assoc in Hrem'. apply app_inv_tail in Hrem'.
      by apply app_inv_tail in Hrem'. }
    rewrite Hrem in Happ.
    rewrite (append_item_once _ _ (pre' ++ entries es') feed_tail) in Happ;
      [|by apply tame_marker_first|by vm_compute].
    apply Ok_inj in Happ as <-.
    exists pre', (es' ++ [entry_of V sv url size (load_notes fs np) minsys date sigs]).
    split; [|split; [done|]].
    + rewrite entries_app, entries_cons. change (entries []) with (@nil N).
      rewrite app_nil_r. unfold compose, entry_of.
      cbn [e_version e_short e_url e_size e_notes e_minsys e_sigs e_date].
      by rewrite <- !app_assoc.
    + intros V'. apply Forall_app. split; [done|]. constructor; [|constructor].
      destruct (load_notes_landmarks fs np V') as (_ & _ & _ & Hn4 & Hn5 & _).
      unfold plain_entry, entry_of. simpl. by repeat split.
Qed.

End ProducedShape.

Lemma sample_record_plain (V v : str) :
  lacks 60 v = true ->
  occurrences (version_tag V) default_notes = 0%nat ->
  plain_entry V (sample_record v).
Proof.
  intros Hv HV. unfold plain_entry, sample_record, entry_of.
  cbn [e_version e_short e_url e_size e_notes e_minsys e_sigs e_date].
  rewrite !lacks_app, Hv.
  repeat split; try done; intros k w Hk; by rewrite lookup_empty in Hk.
Defined.

Example feed2_entries :
  feed2 = skeleton_head (lit "https://example.com/appcast.xml")
          ++ entries [sample_record (lit "1.0"); sample_record (lit "1.1")]
          ++ marker ++ feed_tail.
Proof. by vm_compute. Qed.

(** X15 on the feed after the releases of 1.0 and 1.1, for 1.1: both
    entries go. *)
Lemma removal_drops_earlier_entries_witness :
  let pre := skeleton_head (lit "https://example.com/appcast.xml") in
  remove_existing_item
    (pre ++ entries [sample_record (lit "1.0"); sample_record (lit "1.1")]
         ++ marker ++ feed_tail) (lit "1.1")
  = rstrip pre ++ nl ++ nl ++ lit "  " ++ marker ++ feed_tail.
Proof.
  intros pre.
  rewrite (removal_drops_earlier_entries pre (marker ++ feed_tail) (lit "1.1")
             [sample_record (lit "1.0"); sample_record (lit "1.1")]).
  - by vm_compute.
  - by vm_compute.
  - by vm_compute.
  - by vm_compute.
  - repeat (apply Forall_cons; split); [| |done];
      apply sample_record_plain; by vm_compute.
  - by vm_compute.
Defined.

(** X16 on the feed after the releases of 1.0 and 1.1. *)
Lemma produced_feeds_are_entry_lists_witness :
  exists pre es,
    feed2 = pre ++ entries es ++ marker ++ feed_tail /\
    contains item_open pre = false /\
    forall V, Forall (plain_entry V) es.
Proof. apply (produced_feeds_are_entry_lists (Path := list str)), feed2_produced. Defined.

Section ProducedUpdates.
Context {Path : Type} `{Pathlib Path}.

(** X17.  One update of a produced feed.  When the feed is a text without
    [<item>], then plain entries, then the closing channel tag and the end
    of the skeleton, the update for [V] succeeds with every item, and the
    document it returns holds the entries after the last entry for [V]
    (all entries when there is none for [V]), then the new item before
    the closing channel tag: the entry for [V] and every entry before it
    are gone. *)
Theorem update_keeps_later_entries (doc pre V item : str) (es : list entry) :
  produced Path doc ->
  doc = pre ++ entries es ++ marker ++ feed_tail ->
  contains item_open pre = false ->
  Forall (plain_entry V) es ->
  lacks 60 V = true -> no_space V = true ->
  append_item (remove_existing_item doc V) item =
  Ok (match after_last V es with
      | None => pre ++ entries es
      | Some later => rstrip pre ++ nl ++ nl ++ lit "  " ++ entries later
      end ++ item ++ nl ++ lit "  " ++ marker ++ feed_tail).
Proof.
  intros Hdoc Hshape Hpre Hes HV HVs.
  pose proof (produced_settled doc Hdoc) as (h & Hh & Htame).
  destruct (removal_settled V (length h) h) as (h' & Hrem & Htame'); [done..|].
  rewrite <- Hh in Hrem.
  assert (remove_existing_item doc V
          = match after_last V es with
            | None => pre ++ entries es
            | Some later => rstrip pre ++ nl ++ nl ++ lit "  " ++ entries later
            end ++ marker ++ feed_tail) as Hrem'.
  { rewrite Hshape.
    rewrite (removal_on_entries pre (marker ++ feed_tail) V es); [|done..|by vm_compute].
    destruct (after_last V es); by rewrite <- !app_assoc. }
  rewrite Hrem in Hrem'. apply app_inv_tail in Hrem'. subst h'.
  rewrite Hrem.
  etransitivity;
    [apply append_item_once; [by apply tame_marker_first|by vm_compute]|].
  by rewrite <- !app_assoc.
Qed.

End ProducedUpdates.

(** X17 on the feed after the releases of 1.0 and 1.1, for 1.0. *)
Lemma update_keeps_later_entries_witness :
  let pre := skeleton_head (lit "https://example.com/appcast.xml") in
  append_item (remove_existing_item feed2 (lit "1.0")) (sample_entry (lit "1.0")) =
  Ok (match after_last (lit "1.0") [sample_record (lit "1.0"); sample_record (lit "1.1")] with
      | None => pre ++ entries [sample_record (lit "1.0"); sample_record (lit "1.1")]
      | Some later => rstrip pre ++ nl ++ nl ++ lit "  " ++ entries later
      end ++ sample_entry (lit "1.0") ++ nl ++ lit "  " ++ marker ++ feed_tail).
Proof.
  intros pre.
  apply (update_keeps_later_entries (Path := list str) feed2 pre (lit "1.0")).
  - exact feed2_produced.
  - exact feed2_entries.
  - by vm_compute.
  - repeat (apply Forall_cons; split); [| |done];
      apply sample_record_plain; by vm_compute.
  - by vm_compute.
  - by vm_compute.
Defined.

(** The same update, spelt out: the entry for 1.1 stays and the new entry
    for 1.0 follows it. *)
Example update_of_the_first_of_two :
  append_item (remove_existing_item feed2 (lit "1.0")) (sample_entry (lit "1.0")) =
  Ok (rstrip (skeleton_head (lit "https://example.com/appcast.xml"))
      ++ nl ++ nl ++ lit "  "
      ++ entries [sample_record (lit "1.1"); sample_record (lit "1.0")]
      ++ marker ++ feed_tail).
Proof. by vm_compute. Qed.

(** ** The environment *)

(** X18.  When [MIN_SYSTEM_VERSION] is set in the environment, to any
    text, the empty one included, [--min-system-version] makes no
    difference to the run, and the item composed holds the minimum
    system version field with the value of the variable. *)
Theorem environment_overrides_min_system {Path : Type} `{Pathlib Path}
    (args : Args) (environ : gmap string str) (now : str) (fs : gmap Path node)
    (value other : str) :
  environ !! "MIN_SYSTEM_VERSION"%string = Some value ->
  main (with_min_system_version other args) environ now fs = main args environ now fs /\
  forall file_size notes_html,
    contains (min_system_field value)
      (main_item args environ now file_size notes_html) = true.
Proof.
  intros Henv. split.
  - unfold main, main_item, resolve_notes_path, zip_path_of, appcast_path_of.
    simpl. by rewrite Henv.
  - intros file_size notes_html. unfold main_item, build_item.
    rewrite Henv. cbn [default from_option]. cbv zeta.
    do 36 apply contains_app_r.
    apply (contains_within _ (lit "      ") (nl ++ lit "    </item>" ++ nl)).
    unfold min_system_field. by rewrite <- !app_assoc.
Qed.

(** X18 with the variable set to the empty text. *)
Lemma environment_overrides_min_system_witness :
  main (with_min_system_version (lit "12.0") sample_args) empty_min_system sample_now
    (release_files feed1)
  = main sample_args empty_min_system sample_now (release_files feed1) /\
  forall file_size notes_html,
    contains (min_system_field [])
      (main_item sample_args empty_min_system sample_now file_size notes_html) = true.
Proof.
  apply (environment_overrides_min_system sample_args empty_min_system sample_now
           (release_files feed1) [] (lit "12.0")).
  reflexivity.
Defined.
